(** * Shard storage engine (shard.go): a shallow embedding and its properties

    The Go source is embedded function by function.  Conventions:

    - [uint32], [uint64] and [int64] values are integers of [Z]; every
      conversion and truncation the source performs is written out
      ([byte_of_Z], [uint32_of_len], [uint64_of_int64], ...).
    - a [[]byte] is a [list byte]; its capacity is taken equal to its length,
      so a slice expression [b[i:j]] is defined when [i <= j <= len(b)].
    - a Go panic is an explicit outcome ([None] in the codec, [Panic] and
      [Panicked] in the stateful part).
    - the embedded key/value store (bolt) and the broker connection are
      collaborators; they are modelled at their interface in [Module bolt]
      and [MessagingConn]. *)

From Stdlib Require Import ZArith Lia Sorted.
From Stdlib Require Strings.Byte.
From Equations.Prop Require Import Equations.
From stdpp Require Import gmap strings list.

Local Open Scope Z_scope.

(** ** Bytes and fixed-width integers *)

Abbreviation byte := Init.Byte.byte.
Abbreviation bytes := (list Init.Byte.byte).

#[global] Instance byte_eq_dec : EqDecision byte := Byte.byte_eq_dec.

#[global] Program Instance byte_countable : Countable byte :=
  inj_countable Byte.to_N Byte.of_N _.
Next Obligation. intros b. apply Byte.of_to_N. Qed.

(** Go's conversion [byte(v)] of an unsigned integer: the low eight bits. *)
Definition byte_of_Z (v : Z) : byte :=
  default Byte.x00 (Byte.of_N (Z.to_N (v mod 256))).

(** Go's conversion [uint32(b)] / [uint64(b)] of a byte. *)
Definition Z_of_byte (b : byte) : Z := Z.of_N (Byte.to_N b).

Definition uint32_max : Z := 2 ^ 32 - 1.
Definition uint64_max : Z := 2 ^ 64 - 1.

Definition is_uint32 (v : Z) : Prop := 0 <= v <= uint32_max.
Definition is_uint64 (v : Z) : Prop := 0 <= v <= uint64_max.
Definition is_int64 (v : Z) : Prop := - 2 ^ 63 <= v < 2 ^ 63.

(** [uint64(t)] for [t : int64]: two's complement reinterpretation. *)
Definition uint64_of_int64 (t : Z) : Z := t mod 2 ^ 64.

(** [int64(u)] for [u : uint64]. *)
Definition int64_of_uint64 (u : Z) : Z :=
  if u <? 2 ^ 63 then u else u - 2 ^ 64.

(** [uint32(len(b))]: the length of a slice truncated to 32 bits. *)
Definition uint32_of_len (b : bytes) : Z := Z.of_nat (length b) mod 2 ^ 32.

(** The slice expression [b[i:j]]; [None] is the run-time panic
    "slice bounds out of range".  A slice is modelled by its elements, so its
    capacity is taken to be its length: Go bounds [j] by [cap(b)], and on a
    slice with spare capacity an expression with [len(b) < j <= cap(b)]
    succeeds where this one answers [None].  Every slice expression of
    shard.go is either guarded by a test on [len], or has its upper bound
    omitted, or is applied to a slice of at least 16 bytes with bounds up to
    16; what is proved below of a [None] is stated for these cases only. *)
Definition slice (b : bytes) (i j : nat) : option bytes :=
  if decide (i ≤ j ∧ j ≤ length b)%nat then Some (take (j - i) (drop i b))
  else None.

(** ** encoding/binary, big endian *)

Module BigEndian.

(** [binary.BigEndian.PutUint32(b, v)]: the four bytes written to [b[0:4]]. *)
Definition PutUint32 (v : Z) : bytes :=
  [ byte_of_Z (Z.shiftr v 24); byte_of_Z (Z.shiftr v 16);
    byte_of_Z (Z.shiftr v 8); byte_of_Z v ].

(** [binary.BigEndian.PutUint64(b, v)]: the eight bytes written to [b[0:8]]. *)
Definition PutUint64 (v : Z) : bytes :=
  [ byte_of_Z (Z.shiftr v 56); byte_of_Z (Z.shiftr v 48);
    byte_of_Z (Z.shiftr v 40); byte_of_Z (Z.shiftr v 32);
    byte_of_Z (Z.shiftr v 24); byte_of_Z (Z.shiftr v 16);
    byte_of_Z (Z.shiftr v 8); byte_of_Z v ].

(** [binary.BigEndian.Uint32(b)]; panics (index out of range) when
    [len(b) < 4]. *)
Definition Uint32 (b : bytes) : option Z :=
  match b with
  | b0 :: b1 :: b2 :: b3 :: _ =>
      Some (Z.lor (Z.lor (Z.lor (Z_of_byte b3)
                                (Z.shiftl (Z_of_byte b2) 8))
                         (Z.shiftl (Z_of_byte b1) 16))
                  (Z.shiftl (Z_of_byte b0) 24))
  | _ => None
  end.

(** [binary.BigEndian.Uint64(b)]; panics when [len(b) < 8]. *)
Definition Uint64 (b : bytes) : option Z :=
  match b with
  | b0 :: b1 :: b2 :: b3 :: b4 :: b5 :: b6 :: b7 :: _ =>
      Some (Z.lor (Z.lor (Z.lor (Z.lor (Z.lor (Z.lor (Z.lor
              (Z_of_byte b7)
              (Z.shiftl (Z_of_byte b6) 8))
              (Z.shiftl (Z_of_byte b5) 16))
              (Z.shiftl (Z_of_byte b4) 24))
              (Z.shiftl (Z_of_byte b3) 32))
              (Z.shiftl (Z_of_byte b2) 40))
              (Z.shiftl (Z_of_byte b1) 48))
              (Z.shiftl (Z_of_byte b0) 56))
  | _ => None
  end.

End BigEndian.

(** ** Point headers *)

(** [const pointHeaderSize = 4 + 4 + 8] *)
Definition pointHeaderSize : nat := 4 + 4 + 8.

(** [marshalPointHeader]: [b := make([]byte, pointHeaderSize)], then the three
    fields are written in place at offsets 0, 4 and 8. *)
Definition marshalPointHeader (seriesID payloadLength timestamp : Z) : bytes :=
  let b := replicate pointHeaderSize Byte.x00 in
  let b := list_inserts 0 (BigEndian.PutUint32 seriesID) b in
  let b := list_inserts 4 (BigEndian.PutUint32 payloadLength) b in
  let b := list_inserts 8 (BigEndian.PutUint64 (uint64_of_int64 timestamp)) b in
  b.

(** [unmarshalPointHeader]: the three slice expressions and the three reads;
    [None] when one of them panics. *)
Definition unmarshalPointHeader (b : bytes) : option (Z * Z * Z) :=
  b04 ← slice b 0 4;
  seriesID ← BigEndian.Uint32 b04;
  b48 ← slice b 4 8;
  payloadLength ← BigEndian.Uint32 b48;
  b816 ← slice b 8 16;
  u ← BigEndian.Uint64 b816;
  Some (seriesID, payloadLength, int64_of_uint64 u).

(** ** Key encoding helpers *)

(** Modelled from the spec: [u32tob], [u64tob] and [btou64] are declared
    outside shard.go; section 6 of the specification describes them as the
    4-byte big-endian encoding of series ids and the 8-byte big-endian
    encoding and decoding of timestamps and replication indices. *)
Definition u32tob (v : Z) : bytes := BigEndian.PutUint32 v.
Definition u64tob (v : Z) : bytes := BigEndian.PutUint64 v.
Definition btou64 (b : bytes) : option Z := BigEndian.Uint64 b.

(** [[]byte("...")] *)
Definition bytes_of_string (s : string) : bytes := String.list_byte_of_string s.

(** ** Errors, panics and results *)

Inductive error : Type :=
| ErrShardAlreadyOpen                       (* errors.New("shard already open") *)
| ErrInvalidPointBuffer                     (* declared outside shard.go *)
| ErrInit (err : error)                     (* fmt.Errorf("init: %s", err) *)
| ErrOpenShardConn (id idx : Z) (err : error)
                                            (* fmt.Errorf("open shard conn: ...") *)
| ErrWriteShardIndex (err : error)          (* fmt.Errorf("write shard index: %s", err) *)
| ErrTimeout                                (* bolt.ErrTimeout *)
| ErrDatabaseNotOpen                        (* bolt.ErrDatabaseNotOpen *)
| ErrBucketNameRequired                     (* bolt.ErrBucketNameRequired *)
| ErrKeyRequired                            (* bolt.ErrKeyRequired *)
| ErrKeyTooLarge                            (* bolt.ErrKeyTooLarge *)
| ErrValueTooLarge                          (* bolt.ErrValueTooLarge *)
| ErrExternal (msg : string).               (* an error reported by the file
                                               system or by the broker *)

Inductive panic : Type :=
| NilDereference
| IndexOutOfRange
| DivideByZero
| PanicApplyShard (id idx : Z) (err : error)
    (* panic(fmt.Errorf("apply shard: id=%d, idx=%d, err=%s", ...)) *)
| PanicInvalidMessageType (t : Z).
    (* panic(fmt.Sprintf("invalid shard message type: %d", m.Type)) *)

(** The outcome of a Go function returning [(A, error)] (or just [error],
    with [A := unit]) that may also panic. *)
Inductive result (A : Type) : Type :=
| Ok (a : A)
| Err (err : error)
| Panic (p : panic).
Arguments Ok {A} a.
Arguments Err {A} err.
Arguments Panic {A} p.

#[global] Instance error_eq_dec : EqDecision error.
Proof. solve_decision. Defined.

(** ** The embedded store (github.com/boltdb/bolt), at its interface *)

Module bolt.

(** A bucket maps keys to values; a transaction sees the root buckets of the
    store file by name.  shard.go creates no nested bucket. *)
Abbreviation Bucket := (gmap bytes bytes).
Abbreviation Tx := (gmap bytes (gmap bytes bytes)).

(** The size limits of [Put], as bolt declared them when shard.go was
    written. *)
Definition MaxKeySize : Z := 32768.
Definition MaxValueSize : Z := 4294967295.

(** [tx.CreateBucketIfNotExists(name)].  The returned [*Bucket] is
    represented by the bucket's name. *)
Definition CreateBucketIfNotExists (name : bytes) (tx : Tx)
  : result (bytes * Tx) :=
  if decide (name = []) then Err ErrBucketNameRequired
  else match tx !! name with
       | Some _ => Ok (name, tx)
       | None => Ok (name, <[name := ∅]> tx)
       end.

(** [tx.Bucket(name)]: [nil] when there is no such bucket. *)
Definition Bucket_ (name : bytes) (tx : Tx) : option bytes :=
  match tx !! name with
  | Some _ => Some name
  | None => None
  end.

(** [b.Get(key)]: [nil] when the key is absent; a nil [b] panics. *)
Definition Get (b : option bytes) (key : bytes) (tx : Tx)
  : result (option bytes) :=
  match b with
  | None => Panic NilDereference
  | Some name => Ok (tx !! name ≫= λ bk, bk !! key)
  end.

(** [b.Put(key, value)]; a nil [b] panics. *)
Definition Put (b : option bytes) (key value : bytes) (tx : Tx)
  : result Tx :=
  match b with
  | None => Panic NilDereference
  | Some name =>
      if decide (key = []) then Err ErrKeyRequired
      else if decide (MaxKeySize < Z.of_nat (length key)) then
             Err ErrKeyTooLarge
      else if decide (MaxValueSize < Z.of_nat (length value)) then
             Err ErrValueTooLarge
      else match tx !! name with
           | Some bk => Ok (<[name := <[key := value]> bk]> tx)
           | None => Panic NilDereference
           end
  end.

(** A [*bolt.DB] object: the file it was opened on, and whether it is still
    open. *)
Record DB : Type := mkDB { path : string; opened : bool }.

(** The state the store lives in: the committed contents of the store file
    at each path, the [*bolt.DB] objects allocated so far (a pointer is an
    index into [dbs]), and what the environment does to the next
    operations: [open_fault] makes [bolt.Open] fail (permissions, a lock
    held by another process), [commit_fault] makes a commit fail (I/O). *)
Record State : Type := mkState {
  files : gmap string (gmap bytes (gmap bytes bytes));
  dbs : list DB;
  open_fault : option error;
  commit_fault : option error
}.

Definition set_files (f : gmap string Tx) (w : State) : State :=
  mkState f (dbs w) (open_fault w) (commit_fault w).
Definition set_dbs (d : list DB) (w : State) : State :=
  mkState (files w) d (open_fault w) (commit_fault w).

(** The file at [p] is locked by an open handle. *)
Definition locked (p : string) (w : State) : bool :=
  existsb (λ d, bool_decide (path d = p) && opened d) (dbs w).

(** [bolt.Open(path, 0600, &bolt.Options{Timeout: 1 * time.Second})]:
    creates the file when it does not exist, takes the exclusive file lock
    (giving up after the timeout) and returns a new handle. *)
Definition Open (p : string) (w : State) : result nat * State :=
  match open_fault w with
  | Some err => (Err err, w)
  | None =>
      if locked p w then (Err ErrTimeout, w)
      else
        let f := match files w !! p with
                 | Some _ => files w
                 | None => <[p := ∅]> (files w)
                 end in
        (Ok (length (dbs w)),
         mkState f (dbs w ++ [mkDB p true]) (open_fault w) (commit_fault w))
  end.

(** [db.Close()]: releases the handle; its error is never looked at by
    shard.go. *)
Definition Close (db : nat) (w : State) : State :=
  set_dbs (alter (λ d, mkDB (path d) false) db (dbs w)) w.

(** [db.Update(fn)]: runs [fn] in a read-write transaction on the committed
    contents; commits when [fn] returns nil, rolls back when it returns an
    error or panics.  [fn] is a Go closure: besides the transaction it may
    change the program's own memory [H], and those changes are not undone
    by a rollback. *)
Definition Update {H : Type} (db : nat)
    (fn : Tx → H → result Tx * H) (h : H) (w : State)
  : result unit * H * State :=
  match dbs w !! db with
  | None => (Panic NilDereference, h, w)
  | Some d =>
      if negb (opened d) then (Err ErrDatabaseNotOpen, h, w)
      else
        match fn (default ∅ (files w !! path d)) h with
        | (Ok tx, h) =>
            match commit_fault w with
            | Some err => (Err err, h, w)
            | None => (Ok (), h, set_files (<[path d := tx]> (files w)) w)
            end
        | (Err err, h) => (Err err, h, w)
        | (Panic p, h) => (Panic p, h, w)
        end
  end.

End bolt.

(** ** Shards *)

(** The broker connection, as far as [open] uses it: the answer of
    [conn.Open(index, fromStart)] ([None] is a nil error).  The messages of
    [conn.C()] are given to [processor] as a list. *)
Record MessagingConn : Type := mkConn {
  conn_Open : Z → bool → option error
}.

Record Shard : Type := mkShard {
  ID : Z;                          (* uint64 *)
  DataNodeIDs : list Z;            (* []uint64 *)
  index : Z;                       (* uint64, highest replicated index *)
  store : option nat;              (* *bolt.DB, nil when None *)
  conn : option MessagingConn      (* never assigned in shard.go *)
}.

(** [newShard] *)
Definition newShard : Shard := mkShard 0 [] 0 None None.

Definition set_index (i : Z) (s : Shard) : Shard :=
  mkShard (ID s) (DataNodeIDs s) i (store s) (conn s).
Definition set_store (d : option nat) (s : Shard) : Shard :=
  mkShard (ID s) (DataNodeIDs s) (index s) d (conn s).

(** Calls that leave the shard: on the broker connection, and the start of the
    consumer goroutine. *)
Inductive Call : Type :=
| CallConnOpen (index : Z) (fromStart : bool)   (* conn.Open(index, fromStart) *)
| GoProcessor.                                  (* go s.processor(conn) *)

(** [close] *)
Definition close (s : Shard) (w : bolt.State) : result unit * Shard * bolt.State :=
  match store s with
  | Some db => (Ok (), s, bolt.Close db w)
  | None => (Ok (), s, w)
  end.

(** The closure that [open] passes to [s.store.Update]. *)
Definition open_init (tx : bolt.Tx) (s : Shard) : result bolt.Tx * Shard :=
  (* _, _ = tx.CreateBucketIfNotExists([]byte("values")) *)
  let tx := match bolt.CreateBucketIfNotExists (bytes_of_string "values") tx with
            | Ok (_, tx') => tx'
            | _ => tx
            end in
  (* b, _ := tx.CreateBucketIfNotExists([]byte("meta")) *)
  let '(b, tx) := match bolt.CreateBucketIfNotExists (bytes_of_string "meta") tx with
                  | Ok (b, tx') => (Some b, tx')
                  | _ => (None, tx)
                  end in
  match bolt.Get b (bytes_of_string "index") tx with
  | Ok buf =>
      let buf := default [] buf in
      if decide (0 < length buf)%nat then
        match btou64 buf with
        | Some i => (Ok tx, set_index i s)
        | None => (Panic IndexOutOfRange, s)
        end
      else (Ok tx, s)
  | Err err => (Err err, s)
  | Panic p => (Panic p, s)
  end.

(** [open]; the last component lists the calls made on the way. *)
Definition open (s : Shard) (p : string) (c : MessagingConn) (w : bolt.State)
  : result unit * Shard * bolt.State * list Call :=
  match store s with
  | Some _ => (Err ErrShardAlreadyOpen, s, w, [])
  | None =>
      match bolt.Open p w with
      | (Ok db, w) =>
          let s := set_store (Some db) s in
          let s := set_index 0 s in
          match bolt.Update db open_init s w with
          | (Ok _, s, w) =>
              match conn_Open c (index s) true with
              | None => (Ok (), s, w, [CallConnOpen (index s) true; GoProcessor])
              | Some err =>
                  let '(_, s, w) := close s w in
                  (Err (ErrOpenShardConn (ID s) (index s) err), s, w,
                   [CallConnOpen (index s) true])
              end
          | (Err err, s, w) =>
              let '(_, s, w) := close s w in
              (Err (ErrInit err), s, w, [])
          | (Panic pn, s, w) => (Panic pn, s, w, [])
          end
      | (Err err, w) => (Err err, s, w, [])
      | (Panic pn, w) => (Panic pn, s, w, [])
      end
  end.

(** *** writeSeries *)

(** One pass through the body of the [for] loop of [writeSeries], up to and
    including [batch = batch[payloadLength:]]: the transaction after the
    frame was stored, and the rest of the batch. *)
Definition writePoint (tx : bolt.Tx) (batch : bytes) : result (bolt.Tx * bytes) :=
  (* pointHeaderSize > len(batch) *)
  if decide (length batch < pointHeaderSize)%nat then Err ErrInvalidPointBuffer
  else
    match unmarshalPointHeader (take pointHeaderSize batch) with
    | None => Panic IndexOutOfRange
    | Some (seriesID, payloadLength, timestamp) =>
        let batch := drop pointHeaderSize batch in
        (* payloadLength > uint32(len(batch)) *)
        if decide (uint32_of_len batch < payloadLength) then
          Err ErrInvalidPointBuffer
        else
          let data := take (Z.to_nat payloadLength) batch in
          match bolt.CreateBucketIfNotExists (u32tob seriesID) tx with
          | Ok (b, tx) =>
              match bolt.Put (Some b) (u64tob (uint64_of_int64 timestamp)) data tx with
              | Ok tx => Ok (tx, drop (Z.to_nat payloadLength) batch)
              | Err err => Err err
              | Panic p => Panic p
              end
          | Err err => Err err
          | Panic p => Panic p
          end
    end.

Definition inspect {A : Type} (x : A) : {y : A | x = y} := exist _ x eq_refl.

(** The [for] loop of [writeSeries]: frames are stored until the batch is
    used up. *)
Equations writePoints (tx : bolt.Tx) (batch : bytes) : result bolt.Tx
  by wf (length batch) lt :=
  writePoints tx batch with inspect (writePoint tx batch) => {
    | exist _ (Ok (tx', rest)) Hstep =>
        if decide (length rest = 0)%nat then Ok tx' else writePoints tx' rest
    | exist _ (Err err) _ => Err err
    | exist _ (Panic p) _ => Panic p }.
Next Obligation.
  intros tx batch tx' rest Hstep _ _. revert Hstep.
  unfold writePoint. destruct (decide _) as [|Hlen]; [discriminate|].
  destruct (unmarshalPointHeader _) as [[[sid plen] ts]|]; [|discriminate].
  destruct (decide _); [discriminate|].
  destruct (bolt.CreateBucketIfNotExists _ _) as [[b tx1]| |]; try discriminate.
  destruct (bolt.Put _ _ _ _); try discriminate.
  intros [= _ <-]. rewrite !length_drop.
  unfold pointHeaderSize in *. simpl in *. lia.
Qed.

(** The closure that [writeSeries] passes to [s.store.Update]. *)
Definition writeSeries_tx (index : Z) (batch : bytes) (tx : bolt.Tx)
  : result bolt.Tx :=
  match writePoints tx batch with
  | Ok tx =>
      match bolt.Put (bolt.Bucket_ (bytes_of_string "meta") tx)
                     (bytes_of_string "index") (u64tob index) tx with
      | Ok tx => Ok tx
      | Err err => Err (ErrWriteShardIndex err)
      | Panic p => Panic p
      end
  | Err err => Err err
  | Panic p => Panic p
  end.

(** [writeSeries]; the shard itself is not changed. *)
Definition writeSeries (s : Shard) (index : Z) (batch : bytes) (w : bolt.State)
  : result unit * bolt.State :=
  match store s with
  | None => (Panic NilDereference, w)
  | Some db =>
      let '(r, _, w) :=
        bolt.Update db (λ tx (h : unit), (writeSeries_tx index batch tx, h)) () w in
      (r, w)
  end.

(** *** The consumer loop *)

Record Message : Type := mkMessage {
  Index : Z;       (* uint64 *)
  Type_ : Z;       (* the message type *)
  Data : bytes
}.

(** What one turn of, or a whole run of, the consumer loop ends in. *)
Inductive loop_state : Type :=
| Running (s : Shard) (w : bolt.State)
| Panicked (p : panic) (s : Shard) (w : bolt.State).

Section Processor.

(** The message type constant is declared outside shard.go. *)
Variable writeRawSeriesMessageType : Z.

(** The body of the [for] loop of [processor], for a received message. *)
Definition processor_step (m : Message) (s : Shard) (w : bolt.State)
  : loop_state :=
  if decide (Index m < index s) then Running s w
  else if decide (Type_ m = writeRawSeriesMessageType) then
    match writeSeries s (Index m) (Data m) w with
    | (Ok _, w) => Running (set_index (Index m) s) w
    | (Err err, w) => Panicked (PanicApplyShard (ID s) (Index m) err) s w
    | (Panic p, w) => Panicked p s w
    end
  else Panicked (PanicInvalidMessageType (Type_ m)) s w.

(** [processor], on the messages that [conn.C()] delivers before it is
    closed: [Running s w] is the state in which the loop returns. *)
Fixpoint processor (msgs : list Message) (s : Shard) (w : bolt.State)
  : loop_state :=
  match msgs with
  | [] => Running s w
  | m :: msgs =>
      match processor_step m s w with
      | Running s w => processor msgs s w
      | Panicked p s w => Panicked p s w
      end
  end.

(** The values [s.index] takes, one per received message, up to a panic. *)
Fixpoint index_trace (msgs : list Message) (s : Shard) (w : bolt.State)
  : list Z :=
  match msgs with
  | [] => []
  | m :: msgs =>
      match processor_step m s w with
      | Running s w => index s :: index_trace msgs s w
      | Panicked _ _ _ => []
      end
  end.

End Processor.

(** ** Shard groups *)

(** A [time.Time] is the instant it denotes, in nanoseconds; [Before], [After]
    and [Equal] compare instants. *)
Record ShardGroup : Type := mkShardGroup {
  GroupID : Z;
  StartTime : Z;
  EndTime : Z;
  Shards : list Shard
}.

(** Modelled from the spec: [timeBetweenInclusive] is declared outside
    shard.go; by its name and by the specification of [Contains], it holds when
    [t] falls within [[min, max]], both ends included. *)
Definition timeBetweenInclusive (t min max : Z) : bool :=
  (min <=? t) && (t <=? max).

(** [Contains] *)
Definition Contains (g : ShardGroup) (min max : Z) : bool :=
  timeBetweenInclusive (StartTime g) min max
  || timeBetweenInclusive (EndTime g) min max
  || ((StartTime g <? min) && (max <? EndTime g)).

(** [int(v)] for [v : uint32], where [int] has [intSize] bits (32 or 64,
    by platform). *)
Definition int_of_uint32 (intSize : Z) (v : Z) : Z :=
  let m := v mod 2 ^ intSize in
  if m <? 2 ^ (intSize - 1) then m else m - 2 ^ intSize.

(** [ShardBySeriesID].  Go's [%] truncates towards zero ([Z.rem]) and panics
    on a zero divisor; indexing panics outside [0 <= i < len]. *)
Definition ShardBySeriesID (intSize : Z) (g : ShardGroup) (seriesID : Z)
  : result Shard :=
  let n := Z.of_nat (length (Shards g)) in
  if decide (n = 0) then Panic DivideByZero
  else
    let i := Z.rem (int_of_uint32 intSize seriesID) n in
    if decide (i < 0) then Panic IndexOutOfRange
    else match Shards g !! Z.to_nat i with
         | Some sh => Ok sh
         | None => Panic IndexOutOfRange
         end.

(** ** Write batches, as the wire format of the specification describes them *)

(** A frame: a series id, a timestamp and an opaque payload. *)
Record Frame : Type := mkFrame {
  frame_series : Z;
  frame_timestamp : Z;
  frame_payload : bytes
}.

(** The fields fit their wire types: [uint32] series id and payload length,
    [int64] timestamp. *)
Definition frame_ok (f : Frame) : Prop :=
  is_uint32 (frame_series f) ∧ is_int64 (frame_timestamp f)
  ∧ Z.of_nat (length (frame_payload f)) <= uint32_max.

(** A frame on the wire: the 16-byte header, then the payload. *)
Definition encode_frame (f : Frame) : bytes :=
  marshalPointHeader (frame_series f) (Z.of_nat (length (frame_payload f)))
                     (frame_timestamp f)
  ++ frame_payload f.

Definition encode_frames (fs : list Frame) : bytes :=
  flat_map encode_frame fs.

(** What is left of a batch where a frame is due cannot hold one: fewer than
    16 bytes are left, or the header declares more payload than there is. *)
Inductive bad_tail (t : bytes) : Prop :=
| bad_header :
    (length t < pointHeaderSize)%nat → bad_tail t
| bad_payload seriesID payloadLength timestamp :
    (pointHeaderSize <= length t)%nat →
    unmarshalPointHeader (take pointHeaderSize t)
      = Some (seriesID, payloadLength, timestamp) →
    Z.of_nat (length t - pointHeaderSize) < payloadLength →
    bad_tail t.

(** A malformed batch, read the way the wire format delimits frames: a frame
    is due at the start of the batch and wherever bytes remain after a frame;
    the batch is malformed when, after any number of frames that fit, one is
    due and does not fit. *)
Inductive malformed (batch : bytes) : Prop :=
| malformed_here :
    bad_tail batch → malformed batch
| malformed_later seriesID payloadLength timestamp :
    (pointHeaderSize <= length batch)%nat →
    unmarshalPointHeader (take pointHeaderSize batch)
      = Some (seriesID, payloadLength, timestamp) →
    payloadLength <= Z.of_nat (length batch - pointHeaderSize) →
    malformed (drop (pointHeaderSize + Z.to_nat payloadLength) batch) →
    drop (pointHeaderSize + Z.to_nat payloadLength) batch ≠ [] →
    malformed batch.

(** A well-formed batch: one frame or more, and nothing else. *)
Definition well_formed (batch : bytes) : Prop :=
  ∃ fs, fs ≠ [] ∧ Forall frame_ok fs ∧ batch = encode_frames fs.

(** The shard is open: it holds a handle, and the handle is open. *)
Definition shard_open (s : Shard) (w : bolt.State) : Prop :=
  ∃ db d, store s = Some db ∧ bolt.dbs w !! db = Some d ∧ bolt.opened d = true.

(** The persisted replication index: the value of key "index" in bucket
    "meta", if any. *)
Definition meta_index (tx : bolt.Tx) : option bytes :=
  tx !! bytes_of_string "meta" ≫= λ b, b !! bytes_of_string "index".

(** What a reader sees for a series and a timestamp in the committed store of
    the file at [p] (the lookup that [readSeries] performs). *)
Definition stored_value (w : bolt.State) (p : string) (seriesID timestamp : Z)
  : option bytes :=
  bolt.files w !! p ≫= λ tx, tx !! u32tob seriesID
                ≫= λ b, b !! u64tob (uint64_of_int64 timestamp).

(** The store records [N] as the replication index to recover: key "index"
    of bucket "meta" holds the 8-byte big-endian encoding of [N], or [N] is 0
    and the key is absent or holds no byte. *)
Definition recorded_index (tx : bolt.Tx) (N : Z) : Prop :=
  (is_uint64 N ∧ meta_index tx = Some (u64tob N))
  ∨ (N = 0 ∧ (meta_index tx = None ∨ meta_index tx = Some [])).

(** ** Sequences of lifecycle calls *)

Inductive lifecycle_call : Type :=
| DoOpen (p : string) (c : MessagingConn)     (* s.open(p, c) *)
| DoClose.                                    (* s.close() *)

Definition lifecycle_step (sw : Shard * bolt.State) (op : lifecycle_call)
  : Shard * bolt.State :=
  match op with
  | DoOpen p c => let '(_, s, w, _) := open sw.1 p c sw.2 in (s, w)
  | DoClose => let '(_, s, w) := close sw.1 sw.2 in (s, w)
  end.

Definition lifecycle (ops : list lifecycle_call) (s : Shard) (w : bolt.State)
  : Shard * bolt.State :=
  foldl lifecycle_step (s, w) ops.

(** ** The effect of a batch as an overlay *)

(** [overlay d tx]: the buckets of [d] laid over those of [tx], key by key. *)
Definition overlay (d tx : bolt.Tx) : bolt.Tx :=
  union_with (λ a b : gmap bytes bytes, Some (a ∪ b)) d tx.

(** ** Views of a loop state *)

Definition loop_shard (l : loop_state) : Shard :=
  match l with Running s _ | Panicked _ s _ => s end.
Definition loop_store (l : loop_state) : bolt.State :=
  match l with Running _ w | Panicked _ _ w => w end.

(** ** Example states *)

(** A broker that accepts every connection, and one that refuses them. *)
Definition conn_ok : MessagingConn := mkConn (λ _ _, None).
Definition conn_refusing : MessagingConn :=
  mkConn (λ _ _, Some (ErrExternal "connection refused")).

(** No file, no handle, no fault. *)
Definition fresh_state : bolt.State := bolt.mkState ∅ [] None None.

(** A new shard opened on a new file. *)
Definition opened_shard : Shard :=
  (open newShard "shard1" conn_ok fresh_state).1.1.2.
Definition opened_state : bolt.State :=
  (open newShard "shard1" conn_ok fresh_state).1.2.

(** The frame (seriesID=7, timestamp=42, payload=[1,2,3]). *)
Definition frame_7_42 : Frame :=
  mkFrame 7 42 [Byte.x01; Byte.x02; Byte.x03].

(** A header declaring five bytes of payload, followed by two. *)
Definition overrunning_frame : bytes :=
  marshalPointHeader 8 5 43 ++ [Byte.x09; Byte.x09].

(** A write message carrying the single frame [frame_7_42] at index 5, for a
    message type constant of 1. *)
Definition message_5 : Message := mkMessage 5 1 (encode_frames [frame_7_42]).

(** The state after [opened_shard] wrote [frame_7_42] at index 5 and was
    closed: what a restart finds. *)
Definition written_state : bolt.State :=
  (close opened_shard
     (writeSeries opened_shard 5 (encode_frames [frame_7_42]) opened_state).2).2.

(** A state in which the next commit fails. *)
Definition failing_disk : bolt.State :=
  bolt.mkState ∅ [] None (Some (ErrExternal "no space left on device")).

(** ** The rest of shard.go *)

(** [bolt.ErrBucketNotFound], the value [errors.New("bucket not found")]. *)
Definition ErrBucketNotFound : error := ErrExternal "bucket not found".

(** [tx.DeleteBucket(name)]: removes the root bucket and everything in it;
    an absent bucket is [ErrBucketNotFound]. *)
Definition DeleteBucket (name : bytes) (tx : bolt.Tx) : result bolt.Tx :=
  match tx !! name with
  | Some _ => Ok (delete name tx)
  | None => Err ErrBucketNotFound
  end.

(** [db.View(fn)]: runs [fn] in a read-only transaction on the committed
    contents; nothing is written.  As in [bolt.Update], [H] is the memory the
    closure may change. *)
Definition View {H : Type} (db : nat)
    (fn : bolt.Tx → H → result unit * H) (h : H) (w : bolt.State)
  : result unit * H :=
  match bolt.dbs w !! db with
  | None => (Panic NilDereference, h)
  | Some d =>
      if negb (bolt.opened d) then (Err ErrDatabaseNotOpen, h)
      else fn (default ∅ (bolt.files w !! bolt.path d)) h
  end.

(** The closure of [readSeries]; [values] is the named result it assigns. *)
Definition readSeries_tx (seriesID timestamp : Z) (tx : bolt.Tx)
    (values : option bytes) : result unit * option bytes :=
  match bolt.Bucket_ (u32tob seriesID) tx with
  | None => (Ok (), values)
  | Some b =>
      match bolt.Get (Some b) (u64tob (uint64_of_int64 timestamp)) tx with
      | Ok v => (Ok (), v)
      | Err err => (Err err, values)
      | Panic p => (Panic p, values)
      end
  end.

(** [readSeries]: [Ok v] stands for [(v, nil)], where [v = None] is a nil
    slice, and [Err err] for [(nil, err)]. *)
Definition readSeries (s : Shard) (seriesID timestamp : Z) (w : bolt.State)
  : result (option bytes) :=
  match store s with
  | None => Panic NilDereference
  | Some db =>
      match View db (readSeries_tx seriesID timestamp) None w with
      | (Ok _, values) => Ok values
      | (Err err, _) => Err err
      | (Panic p, _) => Panic p
      end
  end.

(** The closure of [Shard.dropSeries]. *)
Definition dropSeries_tx (seriesID : Z) (tx : bolt.Tx) : result bolt.Tx :=
  match DeleteBucket (u32tob seriesID) tx with
  | Ok tx => Ok tx
  | Err err =>
      (* if err != bolt.ErrBucketNotFound { return err }; return nil *)
      if decide (err = ErrBucketNotFound) then Ok tx else Err err
  | Panic p => Panic p
  end.

(** [Shard.dropSeries] *)
Definition dropSeries (s : Shard) (seriesID : Z) (w : bolt.State)
  : result unit * bolt.State :=
  match store s with
  | None => (Ok (), w)
  | Some db =>
      let '(r, _, w) :=
        bolt.Update db (λ tx (h : unit), (dropSeries_tx seriesID tx, h)) () w in
      (r, w)
  end.

(** The loop of [ShardGroup.dropSeries] over the shards that remain. *)
Fixpoint dropSeries_shards (shards : list Shard) (seriesID : Z)
    (w : bolt.State) : result unit * bolt.State :=
  match shards with
  | [] => (Ok (), w)
  | s :: shards =>
      match dropSeries s seriesID w with
      | (Ok _, w) => dropSeries_shards shards seriesID w
      | (Err err, w) => (Err err, w)
      | (Panic p, w) => (Panic p, w)
      end
  end.

(** [ShardGroup.dropSeries] *)
Definition ShardGroup_dropSeries (g : ShardGroup) (seriesID : Z)
    (w : bolt.State) : result unit * bolt.State :=
  dropSeries_shards (Shards g) seriesID w.

(** [ShardGroup.close]: [_ = sh.close()] for each shard in turn.  [close]
    leaves the shard as it is, so only the store state is threaded. *)
Definition ShardGroup_close (g : ShardGroup) (w : bolt.State) : bolt.State :=
  foldl (λ w sh, (close sh w).2) w (Shards g).

(** The loop of [HasDataNodeID]. *)
Fixpoint HasDataNodeID_ids (ids : list Z) (id : Z) : bool :=
  match ids with
  | [] => false
  | dataNodeID :: ids =>
      if decide (dataNodeID = id) then true else HasDataNodeID_ids ids id
  end.

(** [HasDataNodeID] *)
Definition HasDataNodeID (s : Shard) (id : Z) : bool :=
  HasDataNodeID_ids (DataNodeIDs s) id.

(** [p[i]] for an [int] index; [None] is the panic "index out of range". *)
Definition at_index (p : bytes) (i : Z) : option byte :=
  if decide (0 <= i) then p !! Z.to_nat i else None.

(** [uint8Slice.Len] *)
Definition uint8Slice_Len (p : bytes) : Z := Z.of_nat (length p).

(** [uint8Slice.Less] *)
Definition uint8Slice_Less (p : bytes) (i j : Z) : option bool :=
  a ← at_index p i; b ← at_index p j;
  Some (bool_decide (Z_of_byte a < Z_of_byte b)).

(** [uint8Slice.Swap]: [p[i], p[j] = p[j], p[i]]; both reads come first. *)
Definition uint8Slice_Swap (p : bytes) (i j : Z) : option bytes :=
  a ← at_index p i; b ← at_index p j;
  Some (<[Z.to_nat j := a]> (<[Z.to_nat i := b]> p)).

(** ** What a batch of frames writes *)

(** The payload of the last frame of [fs] for a series and a timestamp. *)
Fixpoint last_write (fs : list Frame) (seriesID timestamp : Z)
  : option bytes :=
  match fs with
  | [] => None
  | f :: fs =>
      match last_write fs seriesID timestamp with
      | Some v => Some v
      | None =>
          if decide (frame_series f = seriesID ∧ frame_timestamp f = timestamp)
          then Some (frame_payload f) else None
      end
  end.

(** A bucket created when it is absent. *)
Definition ensure_bucket (name : bytes) (tx : bolt.Tx) : bolt.Tx :=
  match tx !! name with
  | Some _ => tx
  | None => <[name := ∅]> tx
  end.

(** The committed contents of the file behind handle [d]. *)
Definition file_of (w : bolt.State) (d : bolt.DB) : bolt.Tx :=
  default ∅ (bolt.files w !! bolt.path d).

(** The value under [key] in bucket [name]. *)
Definition get2 (tx : bolt.Tx) (name key : bytes) : option bytes :=
  tx !! name ≫= λ b, b !! key.

(** What storing frame [f] lays over a transaction. *)
Definition frame_delta (f : Frame) : bolt.Tx :=
  {[u32tob (frame_series f) :=
      {[u64tob (uint64_of_int64 (frame_timestamp f)) := frame_payload f]}]}.

(** ** A group of three shards, the second one closed *)

Definition shard_a : Shard := (open newShard "a" conn_ok fresh_state).1.1.2.
Definition state_a : bolt.State := (open newShard "a" conn_ok fresh_state).1.2.
Definition shard_b : Shard := (open newShard "b" conn_ok state_a).1.1.2.
Definition state_ab : bolt.State :=
  (close shard_b (open newShard "b" conn_ok state_a).1.2).2.
Definition shard_c : Shard := (open newShard "c" conn_ok state_ab).1.1.2.
Definition state_abc : bolt.State := (open newShard "c" conn_ok state_ab).1.2.
Definition group_abc : ShardGroup :=
  mkShardGroup 1 100 200 [shard_a; shard_b; shard_c].

(** The series id whose four big-endian bytes spell "meta". *)
Definition meta_series : Z := 1835365473.

(** ** A long batch *)

(** A frame with 32 bytes of payload, and an empty frame of series 0. *)
Definition frame_32 : Frame := mkFrame 1 0 (replicate 32 Byte.x00).
Definition frame_empty : Frame := mkFrame 0 0 [].

(** [frame_32] followed by 2^28 - 1 empty frames: 16 + 2^32 + 16 bytes. *)
Definition long_frames : list Frame :=
  frame_32 :: replicate (Z.to_nat 268435455) frame_empty.

(** A broker that accepts a connection at index [N] with [fromStart = true]
    and refuses every other request. *)
Definition conn_only (N : Z) : MessagingConn :=
  mkConn (λ i fromStart,
            if decide (i = N ∧ fromStart = true) then None
            else Some (ErrExternal "unexpected position")).

(** Three shards that differ in their index, for routing examples. *)
Definition group_of_three : ShardGroup :=
  mkShardGroup 1 100 200
    [set_index 10 newShard; set_index 11 newShard; set_index 12 newShard].

(** ** Codec lemmas *)

Section Codec.

Lemma Z_of_byte_range b : 0 <= Z_of_byte b < 256.
Proof.
  unfold Z_of_byte. pose proof (Byte.to_N_bounded b). lia.
Qed.

Lemma Z_of_byte_of_Z v : Z_of_byte (byte_of_Z v) = v mod 256.
Proof.
  unfold Z_of_byte, byte_of_Z.
  assert (Hr : 0 <= v mod 256 < 256) by (apply Z.mod_pos_bound; lia).
  destruct (Byte.of_N (Z.to_N (v mod 256))) as [b|] eqn:E; simpl.
  - apply Byte.to_of_N in E. rewrite E. lia.
  - apply Byte.of_N_None_iff in E. lia.
Qed.

Lemma byte_of_Z_of_byte b : byte_of_Z (Z_of_byte b) = b.
Proof.
  unfold byte_of_Z. pose proof (Z_of_byte_range b) as Hr.
  rewrite Z.mod_small by lia. unfold Z_of_byte.
  rewrite N2Z.id, Byte.of_to_N. reflexivity.
Qed.

(** Or-ing a shifted value above a smaller one is an addition. *)
Lemma lor_shiftl_add a b k :
  0 <= k -> 0 <= a < 2 ^ k -> 0 <= b ->
  Z.lor a (Z.shiftl b k) = a + b * 2 ^ k.
Proof.
  intros Hk Ha Hb.
  assert (Hland : Z.land a (Z.shiftl b k) = 0).
  { apply Z.bits_inj'. intros n Hn.
    rewrite Z.land_spec, Z.bits_0.
    destruct (Z.lt_ge_cases n k) as [Hlt | Hge].
    - rewrite Z.shiftl_spec_low by lia. apply andb_false_r.
    - rewrite <- (Z.mod_small a (2 ^ k)) by lia.
      rewrite Z.mod_pow2_bits_high by lia. reflexivity. }
  rewrite <- Z.lxor_lor by exact Hland.
  rewrite <- Z.add_nocarry_lxor by exact Hland.
  rewrite Z.shiftl_mul_pow2 by lia. reflexivity.
Qed.

(** Rewrites the nested [Z.lor]/[Z.shiftl] of a big-endian read into a sum,
    innermost first; the byte ranges must be in the context. *)
Ltac lor_to_add :=
  repeat match goal with
    | |- context [Z.lor ?a (Z.shiftl ?b ?k)] =>
        rewrite (lor_shiftl_add a b k) by lia
    end.

Lemma Uint32_sum b0 b1 b2 b3 rest :
  BigEndian.Uint32 (b0 :: b1 :: b2 :: b3 :: rest) =
  Some (Z_of_byte b3 + Z_of_byte b2 * 2 ^ 8 + Z_of_byte b1 * 2 ^ 16
        + Z_of_byte b0 * 2 ^ 24).
Proof.
  pose proof (Z_of_byte_range b0). pose proof (Z_of_byte_range b1).
  pose proof (Z_of_byte_range b2). pose proof (Z_of_byte_range b3).
  unfold BigEndian.Uint32. f_equal. lor_to_add. reflexivity.
Qed.

Lemma Uint64_sum b0 b1 b2 b3 b4 b5 b6 b7 rest :
  BigEndian.Uint64 (b0 :: b1 :: b2 :: b3 :: b4 :: b5 :: b6 :: b7 :: rest) =
  Some (Z_of_byte b7 + Z_of_byte b6 * 2 ^ 8 + Z_of_byte b5 * 2 ^ 16
        + Z_of_byte b4 * 2 ^ 24 + Z_of_byte b3 * 2 ^ 32
        + Z_of_byte b2 * 2 ^ 40 + Z_of_byte b1 * 2 ^ 48
        + Z_of_byte b0 * 2 ^ 56).
Proof.
  pose proof (Z_of_byte_range b0). pose proof (Z_of_byte_range b1).
  pose proof (Z_of_byte_range b2). pose proof (Z_of_byte_range b3).
  pose proof (Z_of_byte_range b4). pose proof (Z_of_byte_range b5).
  pose proof (Z_of_byte_range b6). pose proof (Z_of_byte_range b7).
  unfold BigEndian.Uint64. f_equal. lor_to_add. reflexivity.
Qed.

Lemma Uint32_range b v : BigEndian.Uint32 b = Some v -> is_uint32 v.
Proof.
  destruct b as [|b0 [|b1 [|b2 [|b3 rest]]]]; try discriminate.
  rewrite Uint32_sum. intros [= <-].
  pose proof (Z_of_byte_range b0). pose proof (Z_of_byte_range b1).
  pose proof (Z_of_byte_range b2). pose proof (Z_of_byte_range b3).
  unfold is_uint32, uint32_max. lia.
Qed.

Lemma Uint32_PutUint32 v rest :
  is_uint32 v -> BigEndian.Uint32 (BigEndian.PutUint32 v ++ rest) = Some v.
Proof.
  unfold is_uint32, uint32_max. intros Hv.
  unfold BigEndian.PutUint32. simpl app. rewrite Uint32_sum. f_equal.
  rewrite !Z_of_byte_of_Z, !Z.shiftr_div_pow2 by lia.
  Z.div_mod_to_equations. lia.
Qed.

Lemma Uint64_PutUint64 v rest :
  is_uint64 v -> BigEndian.Uint64 (BigEndian.PutUint64 v ++ rest) = Some v.
Proof.
  unfold is_uint64, uint64_max. intros Hv.
  unfold BigEndian.PutUint64. simpl app. rewrite Uint64_sum. f_equal.
  rewrite !Z_of_byte_of_Z, !Z.shiftr_div_pow2 by lia.
  Z.div_mod_to_equations. lia.
Qed.

Lemma int64_uint64_roundtrip t :
  is_int64 t -> int64_of_uint64 (uint64_of_int64 t) = t.
Proof.
  unfold is_int64, int64_of_uint64, uint64_of_int64. intros Ht.
  destruct (Z.ltb_spec (t mod 2 ^ 64) (2 ^ 63)); Z.div_mod_to_equations; lia.
Qed.

Lemma uint64_of_int64_range t : is_uint64 (uint64_of_int64 t).
Proof.
  unfold is_uint64, uint64_of_int64, uint64_max.
  pose proof (Z.mod_pos_bound t (2 ^ 64)). lia.
Qed.

(** The in-place writes of [marshalPointHeader] fill the buffer with the
    three encodings, one after the other. *)
Lemma marshalPointHeader_app s p t :
  marshalPointHeader s p t =
  BigEndian.PutUint32 s ++ BigEndian.PutUint32 p
    ++ BigEndian.PutUint64 (uint64_of_int64 t).
Proof. reflexivity. Qed.

Lemma marshalPointHeader_length s p t :
  length (marshalPointHeader s p t) = pointHeaderSize.
Proof. reflexivity. Qed.

Lemma unmarshal_marshal_app s p t rest :
  is_uint32 s -> is_uint32 p -> is_int64 t ->
  unmarshalPointHeader (take pointHeaderSize (marshalPointHeader s p t ++ rest))
  = Some (s, p, t).
Proof.
  intros Hs Hp Ht.
  rewrite (take_app_length' _ rest _ (eq_sym (marshalPointHeader_length s p t))).
  rewrite marshalPointHeader_app. unfold unmarshalPointHeader.
  change (slice ?b 0 4) with (Some (BigEndian.PutUint32 s)).
  cbn [mbind option_bind].
  rewrite <- (app_nil_r (BigEndian.PutUint32 s)) at 1.
  rewrite (Uint32_PutUint32 s []) by exact Hs.
  cbn [mbind option_bind].
  change (slice _ 4 8) with (Some (BigEndian.PutUint32 p)).
  cbn [mbind option_bind].
  rewrite <- (app_nil_r (BigEndian.PutUint32 p)) at 1.
  rewrite (Uint32_PutUint32 p []) by exact Hp.
  cbn [mbind option_bind].
  change (slice _ 8 16) with (Some (BigEndian.PutUint64 (uint64_of_int64 t))).
  cbn [mbind option_bind].
  rewrite <- (app_nil_r (BigEndian.PutUint64 _)) at 1.
  rewrite (Uint64_PutUint64 _ []) by apply uint64_of_int64_range.
  cbn [mbind option_bind].
  rewrite int64_uint64_roundtrip by exact Ht. reflexivity.
Qed.

End Codec.

(** ** The point codec *)

(** C5: for every [uint32] series id and payload length and every [int64]
    timestamp, negative ones included, [marshalPointHeader] returns exactly 16
    bytes, and [unmarshalPointHeader] applied to them returns, without
    panicking, the triple that was encoded. *)
Theorem marshal_unmarshal_roundtrip (seriesID payloadLength timestamp : Z) :
  is_uint32 seriesID → is_uint32 payloadLength → is_int64 timestamp →
  length (marshalPointHeader seriesID payloadLength timestamp) = 16%nat
  ∧ unmarshalPointHeader (marshalPointHeader seriesID payloadLength timestamp)
    = Some (seriesID, payloadLength, timestamp).
Proof.
  intros Hs Hp Ht. split; [apply marshalPointHeader_length|].
  pose proof (unmarshal_marshal_app seriesID payloadLength timestamp [] Hs Hp Ht)
    as Hrt.
  rewrite app_nil_r in Hrt.
  rewrite firstn_all2 in Hrt by (rewrite marshalPointHeader_length; lia).
  exact Hrt.
Qed.

Lemma marshal_unmarshal_roundtrip_negative :
  length (marshalPointHeader 7 3 (-42)) = 16%nat
  ∧ unmarshalPointHeader (marshalPointHeader 7 3 (-42)) = Some (7, 3, -42).
Proof.
  apply (marshal_unmarshal_roundtrip 7 3 (-42));
    unfold is_uint32, is_int64, uint32_max; lia.
Defined.

(** [unmarshalPointHeader] does not panic on a slice of 16 bytes or more. *)
Lemma unmarshalPointHeader_total (b : bytes) :
  (pointHeaderSize <= length b)%nat → is_Some (unmarshalPointHeader b).
Proof.
  intros Hlen.
  do 16 (destruct b as [|? b]; [simpl in Hlen; unfold pointHeaderSize in Hlen; simpl in Hlen; lia|]).
  unfold unmarshalPointHeader, slice. simpl length.
  repeat (destruct (decide _) as [_|Hn]; [|exfalso; apply Hn; lia]).
  simpl. eexists. reflexivity.
Qed.

(** ** Shard groups *)

(** C6: [Contains(min, max)] holds exactly when the group's start time lies in
    [[min, max]], or its end time does, or the start is strictly before [min]
    and the end strictly after [max]; for a group from 100 to 200 it answers
    true on (150,160), false on (50,90), true on (50,150) and on (120,180). *)
Theorem Contains_iff :
  (∀ g min max,
     Contains g min max = true ↔
     (min <= StartTime g <= max) ∨ (min <= EndTime g <= max)
     ∨ (StartTime g < min ∧ max < EndTime g))
  ∧ (∀ id shards,
       let g := mkShardGroup id 100 200 shards in
       Contains g 150 160 = true ∧ Contains g 50 90 = false
       ∧ Contains g 50 150 = true ∧ Contains g 120 180 = true).
Proof.
  split.
  - intros g min max. unfold Contains, timeBetweenInclusive.
    rewrite !orb_true_iff, !andb_true_iff, !Z.leb_le, !Z.ltb_lt. tauto.
  - intros id shards. cbv. repeat split; reflexivity.
Qed.

Lemma int_of_uint32_64 v : is_uint32 v → int_of_uint32 64 v = v.
Proof.
  unfold is_uint32, uint32_max, int_of_uint32. intros Hv.
  rewrite Z.mod_small by lia.
  destruct (Z.ltb_spec v (2 ^ (64 - 1))); [reflexivity|]. simpl in *. lia.
Qed.

(** In a group of [n > 0] shards, on a platform whose [int] has 64 bits,
    [ShardBySeriesID(s)] returns the shard at position [s mod n]; being a
    function of the group and of [s] alone, it returns the same shard every
    time it is called on an unchanged group. *)
Theorem ShardBySeriesID_mod (g : ShardGroup) (seriesID : Z) :
  is_uint32 seriesID → Shards g ≠ [] →
  ∃ sh, ShardBySeriesID 64 g seriesID = Ok sh
        ∧ Shards g !! Z.to_nat (seriesID mod Z.of_nat (length (Shards g)))
          = Some sh.
Proof.
  intros Hs Hne. unfold ShardBySeriesID.
  assert (Hn : 0 < Z.of_nat (length (Shards g))).
  { destruct (Shards g); [congruence | simpl; lia]. }
  destruct (decide _) as [H0|_]; [lia|].
  rewrite int_of_uint32_64 by exact Hs.
  unfold is_uint32 in Hs.
  rewrite Z.rem_mod_nonneg by lia.
  pose proof (Z.mod_pos_bound seriesID _ Hn) as Hb.
  destruct (decide _) as [Hneg|_]; [lia|].
  destruct (Shards g !! _) as [sh|] eqn:E.
  - exists sh. split; reflexivity.
  - apply lookup_ge_None in E. lia.
Qed.

Lemma ShardBySeriesID_mod_example :
  ∃ sh, ShardBySeriesID 64 (mkShardGroup 1 100 200
                              [set_index 10 newShard; set_index 11 newShard;
                               set_index 12 newShard]) 4294967295 = Ok sh
        ∧ [set_index 10 newShard; set_index 11 newShard; set_index 12 newShard]
            !! Z.to_nat (4294967295 mod 3) = Some sh.
Proof.
  apply (ShardBySeriesID_mod
           (mkShardGroup 1 100 200
              [set_index 10 newShard; set_index 11 newShard;
               set_index 12 newShard]) 4294967295).
  - unfold is_uint32, uint32_max. lia.
  - simpl. discriminate.
Defined.

(** C7: [ShardBySeriesID] takes [int(seriesID) % len(g.Shards)].  Where [int]
    has 32 bits, a series id of 2^31 or more converts to a negative [int]:
    for the id 4294967293 in a group of three shards the index is
    [-3 % 3 = 0], so the first shard is returned where [s mod n] is 1 and
    names the second, a different shard; and for the id 2147483649 in a group
    of two the index is [-1] and the call panics. *)
Theorem ShardBySeriesID_int32_misroutes :
  ShardBySeriesID 32 group_of_three 4294967293 = Ok (set_index 10 newShard)
  ∧ Shards group_of_three !! Z.to_nat (4294967293 mod 3)
    = Some (set_index 11 newShard)
  ∧ set_index 10 newShard ≠ set_index 11 newShard
  ∧ ShardBySeriesID 64 group_of_three 4294967293
    = Ok (set_index 11 newShard)
  ∧ ShardBySeriesID 32 (mkShardGroup 1 100 200 [newShard; newShard])
                    2147483649 = Panic IndexOutOfRange.
Proof.
  split; [reflexivity|]. split; [reflexivity|]. split; [discriminate|].
  split; reflexivity.
Qed.

(** ** The consumer loop *)

Lemma processor_step_index wt m s w :
  match processor_step wt m s w with
  | Running s' _ =>
      (index s' = index s ∨ index s' = Index m) ∧ index s <= index s'
  | Panicked _ s' _ => index s' = index s
  end.
Proof.
  unfold processor_step.
  destruct (decide (Index m < index s)) as [Hlt|Hge].
  - split; [left; reflexivity | lia].
  - destruct (decide _); [|reflexivity].
    destruct (writeSeries s (Index m) (Data m) w) as [[[]| |] w']; simpl;
      try reflexivity.
    split; [right; reflexivity | lia].
Qed.

(** C3: every turn of the consumer loop either leaves [s.index] as it was or
    sets it to the index of the message it processed, which is then at least
    the index before; so along any sequence of messages the values of
    [s.index] never decrease, and the loop ends (returning or panicking) with
    an index at least the one it started from. *)
Theorem processor_index_monotone (writeRawSeriesMessageType : Z) :
  (∀ m s w,
     match processor_step writeRawSeriesMessageType m s w with
     | Running s' _ =>
         (index s' = index s ∨ index s' = Index m) ∧ index s <= index s'
     | Panicked _ s' _ => index s' = index s
     end)
  ∧ (∀ msgs s w,
       Sorted Z.le (index s :: index_trace writeRawSeriesMessageType msgs s w))
  ∧ (∀ msgs s w,
       match processor writeRawSeriesMessageType msgs s w with
       | Running s' _ | Panicked _ s' _ => index s <= index s'
       end).
Proof.
  split; [apply processor_step_index|]. split.
  - induction msgs as [|m msgs IH]; intros s w; simpl.
    + repeat constructor.
    + pose proof (processor_step_index writeRawSeriesMessageType m s w) as Hs.
      destruct (processor_step _ m s w) as [s' w'|p s' w'].
      * constructor; [apply IH|]. constructor. lia.
      * repeat constructor.
  - induction msgs as [|m msgs IH]; intros s w; simpl.
    + lia.
    + pose proof (processor_step_index writeRawSeriesMessageType m s w) as Hs.
      destruct (processor_step _ m s w) as [s' w'|p s' w'].
      * specialize (IH s' w').
        destruct (processor _ msgs s' w'); lia.
      * lia.
Qed.

(** ** Overlays *)

Lemma overlay_lookup d tx k :
  overlay d tx !! k
  = union_with (λ a b : gmap bytes bytes, Some (a ∪ b)) (d !! k) (tx !! k).
Proof. unfold overlay. apply lookup_union_with. Qed.

Lemma overlay_assoc d1 d2 tx :
  overlay d1 (overlay d2 tx) = overlay (overlay d1 d2) tx.
Proof.
  apply map_eq. intros k. rewrite !overlay_lookup.
  destruct (d1 !! k), (d2 !! k), (tx !! k); simpl; try reflexivity.
  f_equal. apply (assoc_L (∪)).
Qed.

Lemma overlay_idemp d : overlay d d = d.
Proof.
  apply map_eq. intros k. rewrite overlay_lookup.
  destruct (d !! k); simpl; [|reflexivity].
  f_equal. apply (idemp_L (∪)).
Qed.

Lemma overlay_empty_r d : overlay d ∅ = d.
Proof.
  apply map_eq. intros k. rewrite overlay_lookup, lookup_empty.
  destruct (d !! k); reflexivity.
Qed.

(** Storing one value in an existing bucket is an overlay. *)
Lemma insert_overlay (tx : gmap bytes (gmap bytes bytes)) name key value bk :
  tx !! name = Some bk →
  <[name := <[key := value]> bk]> tx
  = overlay {[name := {[key := value]}]} tx.
Proof.
  intros Hbk. apply map_eq. intros k. rewrite overlay_lookup.
  destruct (decide (name = k)) as [<-|Hne].
  - rewrite lookup_insert_eq, lookup_singleton_eq, Hbk. simpl. f_equal.
    apply insert_union_singleton_l.
  - rewrite lookup_insert_ne, lookup_singleton_ne by exact Hne.
    destruct (tx !! k); reflexivity.
Qed.

(** ** One frame and the loop *)

Lemma writePoints_eq tx batch :
  writePoints tx batch =
  match writePoint tx batch with
  | Ok (tx', rest) =>
      if decide (length rest = 0)%nat then Ok tx' else writePoints tx' rest
  | Err err => Err err
  | Panic p => Panic p
  end.
Proof.
  rewrite writePoints_equation_1.
  destruct (inspect (writePoint tx batch)) as [[[tx' rest]| |] e];
    cbn; rewrite e; reflexivity.
Qed.

Lemma writePoint_shorter tx batch tx' rest :
  writePoint tx batch = Ok (tx', rest) → (length rest < length batch)%nat.
Proof.
  unfold writePoint. destruct (decide _) as [|Hlen]; [discriminate|].
  destruct (unmarshalPointHeader _) as [[[sid plen] ts]|]; [|discriminate].
  destruct (decide _); [discriminate|].
  destruct (bolt.CreateBucketIfNotExists _ _) as [[b tx1]| |]; try discriminate.
  destruct (bolt.Put _ _ _ _); try discriminate.
  intros [= _ <-]. rewrite !length_drop.
  unfold pointHeaderSize in *. simpl in *. lia.
Qed.

(** Creating the series bucket if needed and storing one value in it: the
    outcome on any transaction is the outcome on the empty one, laid over
    it. *)
Lemma create_put_overlay name key value tx :
  match bolt.CreateBucketIfNotExists name tx with
  | Ok (b, tx1) => bolt.Put (Some b) key value tx1
  | Err err => Err err
  | Panic p => Panic p
  end
  = match
      match bolt.CreateBucketIfNotExists name ∅ with
      | Ok (b, tx1) => bolt.Put (Some b) key value tx1
      | Err err => Err err
      | Panic p => Panic p
      end
    with
    | Ok d => Ok (overlay d tx)
    | Err err => Err err
    | Panic p => Panic p
    end.
Proof.
  unfold bolt.CreateBucketIfNotExists.
  destruct (decide (name = [])); [reflexivity|].
  rewrite lookup_empty. unfold bolt.Put.
  destruct (decide (key = [])); [destruct (tx !! name); reflexivity|].
  destruct (decide (bolt.MaxKeySize < _)); [destruct (tx !! name); reflexivity|].
  destruct (decide (bolt.MaxValueSize < _)); [destruct (tx !! name); reflexivity|].
  rewrite lookup_insert_eq, insert_insert_eq, insert_empty.
  destruct (tx !! name) as [bk|] eqn:Hbk.
  - rewrite Hbk. f_equal. rewrite insert_empty. apply insert_overlay, Hbk.
  - rewrite lookup_insert_eq, insert_insert_eq. f_equal.
    rewrite insert_empty.
    apply map_eq. intros k. rewrite overlay_lookup.
    destruct (decide (name = k)) as [<-|Hne].
    + rewrite lookup_insert_eq, lookup_singleton_eq, Hbk. reflexivity.
    + rewrite lookup_insert_ne, lookup_singleton_ne by exact Hne.
      destruct (tx !! k); reflexivity.
Qed.

Lemma writePoint_overlay tx batch :
  writePoint tx batch =
  match writePoint ∅ batch with
  | Ok (d, rest) => Ok (overlay d tx, rest)
  | Err err => Err err
  | Panic p => Panic p
  end.
Proof.
  unfold writePoint. destruct (decide _); [reflexivity|].
  destruct (unmarshalPointHeader _) as [[[sid plen] ts]|]; [|reflexivity].
  destruct (decide _); [reflexivity|].
  pose proof (create_put_overlay (u32tob sid) (u64tob (uint64_of_int64 ts))
                (take (Z.to_nat plen) (drop pointHeaderSize batch)) tx) as H.
  destruct (bolt.CreateBucketIfNotExists (u32tob sid) tx) as [[b tx1]| |];
    destruct (bolt.CreateBucketIfNotExists (u32tob sid) ∅) as [[b0 d0]| |];
    try rewrite H; revert H;
    try destruct (bolt.Put (Some b0) _ _ d0); congruence.
Qed.

Lemma writePoints_overlay tx batch :
  writePoints tx batch =
  match writePoints ∅ batch with
  | Ok d => Ok (overlay d tx)
  | Err err => Err err
  | Panic p => Panic p
  end.
Proof.
  remember (length batch) as n eqn:Hn. revert tx batch Hn.
  induction n as [n IH] using lt_wf_ind. intros tx batch ->.
  rewrite (writePoints_eq tx), (writePoints_eq ∅), (writePoint_overlay tx).
  destruct (writePoint ∅ batch) as [[d rest]| |] eqn:E; try reflexivity.
  destruct (decide _); [reflexivity|].
  apply writePoint_shorter in E.
  rewrite (IH _ E (overlay d tx) rest eq_refl), (IH _ E d rest eq_refl).
  destruct (writePoints ∅ rest); try reflexivity.
  rewrite overlay_assoc. reflexivity.
Qed.

Lemma uint32_of_len_le b : uint32_of_len b <= Z.of_nat (length b).
Proof. unfold uint32_of_len. apply Z.mod_le; lia. Qed.

Lemma writePoint_bad_tail tx t :
  bad_tail t → writePoint tx t = Err ErrInvalidPointBuffer.
Proof.
  intros [Hshort | sid plen ts Hlen Hhdr Hplen]; unfold writePoint.
  - destruct (decide _); [reflexivity | lia].
  - destruct (decide _) as [|_]; [lia|]. rewrite Hhdr.
    destruct (decide _) as [|Hn]; [reflexivity|]. exfalso. apply Hn.
    pose proof (uint32_of_len_le (drop pointHeaderSize t)) as Hle.
    rewrite length_drop in Hle. lia.
Qed.

Lemma unmarshal_payloadLength_range b seriesID payloadLength timestamp :
  unmarshalPointHeader b = Some (seriesID, payloadLength, timestamp) →
  is_uint32 payloadLength.
Proof.
  unfold unmarshalPointHeader.
  destruct (slice b 0 4) as [b04|]; [|discriminate]. simpl.
  destruct (BigEndian.Uint32 b04); [|discriminate]. simpl.
  destruct (slice b 4 8) as [b48|]; [|discriminate]. simpl.
  destruct (BigEndian.Uint32 b48) as [pl|] eqn:Hpl; [|discriminate]. simpl.
  destruct (slice b 8 16) as [b816|]; [|discriminate]. simpl.
  destruct (BigEndian.Uint64 b816); [|discriminate]. simpl.
  intros [= _ <- _]. exact (Uint32_range _ _ Hpl).
Qed.

(** One pass of the loop on a batch whose first 16 bytes decode to a header:
    either the payload length is above the (32-bit truncated) number of
    bytes left, or the frame is stored and the loop goes on after it. *)
Lemma writePoint_parsed tx batch seriesID payloadLength timestamp :
  (pointHeaderSize <= length batch)%nat →
  unmarshalPointHeader (take pointHeaderSize batch)
    = Some (seriesID, payloadLength, timestamp) →
  writePoint tx batch =
  if decide (uint32_of_len (drop pointHeaderSize batch) < payloadLength)
  then Err ErrInvalidPointBuffer
  else Ok (overlay {[u32tob seriesID :=
                       {[u64tob (uint64_of_int64 timestamp) :=
                           take (Z.to_nat payloadLength)
                                (drop pointHeaderSize batch)]}]} tx,
           drop (Z.to_nat payloadLength) (drop pointHeaderSize batch)).
Proof.
  intros Hlen Hhdr. rewrite writePoint_overlay. unfold writePoint.
  destruct (decide _) as [Hshort|_]; [lia|]. rewrite Hhdr.
  destruct (decide _); [reflexivity|].
  unfold bolt.CreateBucketIfNotExists.
  destruct (decide (u32tob seriesID = [])); [discriminate|].
  rewrite lookup_empty. unfold bolt.Put.
  destruct (decide (u64tob _ = [])); [discriminate|].
  destruct (decide (bolt.MaxKeySize < _)) as [Hk|_].
  { unfold bolt.MaxKeySize in Hk. simpl in Hk. lia. }
  destruct (decide (bolt.MaxValueSize < _)) as [Hv|_].
  { pose proof (unmarshal_payloadLength_range _ _ _ _ Hhdr) as Hr.
    rewrite length_take in Hv.
    unfold bolt.MaxValueSize, is_uint32, uint32_max in *. lia. }
  rewrite lookup_insert_eq, insert_insert_eq, !insert_empty. reflexivity.
Qed.

(** The frame at the head of a batch: either the 32-bit truncation of the
    remaining length makes the payload look too long, or the frame is stored
    and the loop goes on with what follows it. *)
Lemma writePoint_frame tx f rest :
  frame_ok f →
  writePoint tx (encode_frame f ++ rest) =
  if decide (uint32_of_len (frame_payload f ++ rest)
             < Z.of_nat (length (frame_payload f)))
  then Err ErrInvalidPointBuffer
  else Ok (overlay {[u32tob (frame_series f) :=
                       {[u64tob (uint64_of_int64 (frame_timestamp f)) :=
                           frame_payload f]}]} tx, rest).
Proof.
  intros (Hs & Ht & Hp).
  destruct f as [sid ts payload].
  unfold encode_frame.
  cbn [frame_series frame_timestamp frame_payload] in *.
  rewrite <- app_assoc.
  rewrite (writePoint_parsed tx _ sid (Z.of_nat (length payload)) ts).
  - rewrite (drop_app_length' _ _ _ (eq_sym (marshalPointHeader_length _ _ _))).
    rewrite Nat2Z.id, take_app_length, drop_app_length. reflexivity.
  - rewrite length_app, marshalPointHeader_length. lia.
  - apply unmarshal_marshal_app;
      [exact Hs | unfold is_uint32; lia | exact Ht].
Qed.

Lemma encode_frames_cons f fs t :
  encode_frames (f :: fs) ++ t = encode_frame f ++ (encode_frames fs ++ t).
Proof. unfold encode_frames. simpl. rewrite <- app_assoc. reflexivity. Qed.

(** Every malformed batch fails the loop with the invalid-point-buffer
    error, whatever the transaction holds. *)
Lemma writePoints_malformed batch :
  malformed batch → ∀ tx, writePoints tx batch = Err ErrInvalidPointBuffer.
Proof.
  induction 1 as [batch Hbad | batch sid plen ts Hlen Hhdr Hfit _ IH Hne];
    intros tx; rewrite writePoints_eq.
  - rewrite writePoint_bad_tail by exact Hbad. reflexivity.
  - rewrite (writePoint_parsed tx batch sid plen ts Hlen Hhdr).
    destruct (decide _); [reflexivity|].
    rewrite drop_drop.
    destruct (decide _) as [H0|_].
    + apply length_zero_iff_nil in H0. contradiction.
    + apply IH.
Qed.

(** Well-formed frames followed by a tail that cannot hold a frame make a
    malformed batch. *)
Lemma malformed_encoded fs t :
  Forall frame_ok fs → t ≠ [] → bad_tail t →
  malformed (encode_frames fs ++ t).
Proof.
  intros Hfs Hne Hbad. induction Hfs as [|f fs Hf Hfs IH].
  - apply malformed_here. exact Hbad.
  - rewrite encode_frames_cons.
    destruct Hf as (Hs & Ht & Hp). destruct f as [sid ts payload].
    unfold encode_frame.
    cbn [frame_series frame_timestamp frame_payload] in *.
    rewrite <- app_assoc.
    assert (Hdrop : drop (pointHeaderSize + Z.to_nat (Z.of_nat (length payload)))
                      (marshalPointHeader sid (Z.of_nat (length payload)) ts
                         ++ payload ++ encode_frames fs ++ t)
                    = encode_frames fs ++ t).
    { rewrite Nat2Z.id, <- drop_drop.
      rewrite (drop_app_length' _ _ _ (eq_sym (marshalPointHeader_length _ _ _))).
      apply drop_app_length. }
    apply (malformed_later _ sid (Z.of_nat (length payload)) ts).
    + rewrite length_app, marshalPointHeader_length. lia.
    + apply unmarshal_marshal_app;
        [exact Hs | unfold is_uint32; lia | exact Ht].
    + rewrite !length_app, marshalPointHeader_length. lia.
    + rewrite Hdrop. exact IH.
    + rewrite Hdrop. destruct (encode_frames fs); [exact Hne | discriminate].
Qed.

(** ** writeSeries on an open shard *)

Lemma writeSeries_open s idx batch w db d :
  store s = Some db → bolt.dbs w !! db = Some d → bolt.opened d = true →
  writeSeries s idx batch w =
  match writeSeries_tx idx batch (default ∅ (bolt.files w !! bolt.path d)) with
  | Ok tx =>
      match bolt.commit_fault w with
      | Some err => (Err err, w)
      | None => (Ok (), bolt.set_files (<[bolt.path d := tx]> (bolt.files w)) w)
      end
  | Err err => (Err err, w)
  | Panic p => (Panic p, w)
  end.
Proof.
  intros Hs Hd Ho. unfold writeSeries, bolt.Update. rewrite Hs, Hd, Ho. simpl.
  destruct (writeSeries_tx _ _ _); try reflexivity.
  destruct (bolt.commit_fault w); reflexivity.
Qed.

(** C9: on an open shard, [writeSeries] with an empty batch returns the
    invalid-point-buffer error and changes nothing: it is rejected, not taken
    as a write of no frame, and [meta.index] is not set to the index given. *)
Theorem writeSeries_empty_batch (s : Shard) (w : bolt.State) (idx : Z) :
  shard_open s w →
  writeSeries s idx [] w = (Err ErrInvalidPointBuffer, w).
Proof.
  intros (db & d & Hs & Hd & Ho).
  rewrite (writeSeries_open s idx [] w db d Hs Hd Ho).
  unfold writeSeries_tx. rewrite writePoints_eq. reflexivity.
Qed.

(** C1: on an open shard, [writeSeries] with a malformed batch (after any
    number of frames that fit, a header that does not fit what remains or a
    payload length above what remains) returns the invalid-point-buffer
    error and leaves the whole store state as it was: nothing of the batch,
    leading frames included, is stored, and [meta.index] keeps its value. *)
Theorem writeSeries_malformed (s : Shard) (w : bolt.State) (idx : Z)
    (batch : bytes) :
  shard_open s w → malformed batch →
  writeSeries s idx batch w = (Err ErrInvalidPointBuffer, w).
Proof.
  intros (db & d & Hs & Hd & Ho) Hbad.
  rewrite (writeSeries_open s idx _ w db d Hs Hd Ho).
  unfold writeSeries_tx.
  rewrite (writePoints_malformed batch Hbad). reflexivity.
Qed.

Lemma opened_shard_open : shard_open opened_shard opened_state.
Proof.
  exists 0%nat, (bolt.mkDB "shard1" true). repeat split; reflexivity.
Defined.

Lemma writeSeries_empty_batch_rejected :
  writeSeries opened_shard 5 [] opened_state
  = (Err ErrInvalidPointBuffer, opened_state).
Proof.
  apply (writeSeries_empty_batch opened_shard opened_state 5).
  exact opened_shard_open.
Defined.

Lemma writeSeries_malformed_second_frame :
  writeSeries opened_shard 5
    (encode_frames [frame_7_42] ++ overrunning_frame) opened_state
  = (Err ErrInvalidPointBuffer, opened_state).
Proof.
  apply (writeSeries_malformed opened_shard opened_state 5).
  - exact opened_shard_open.
  - apply (malformed_encoded [frame_7_42] overrunning_frame).
    + repeat constructor; unfold is_uint32, is_int64, uint32_max; simpl; lia.
    + discriminate.
    + apply (bad_payload overrunning_frame 8 5 43).
      * unfold pointHeaderSize. simpl. lia.
      * reflexivity.
      * unfold pointHeaderSize. simpl. lia.
Defined.

(** ** The index write and replay *)

(** The last step of the [writeSeries] transaction: a nil bucket panics,
    otherwise the index is laid over the transaction. *)
Lemma put_meta_index (idx : Z) (tx : gmap bytes (gmap bytes bytes)) :
  bolt.Put (bolt.Bucket_ (bytes_of_string "meta") tx)
           (bytes_of_string "index") (u64tob idx) tx
  = match tx !! bytes_of_string "meta" with
    | Some _ =>
        Ok (overlay {[bytes_of_string "meta" :=
                        {[bytes_of_string "index" := u64tob idx]}]} tx)
    | None => Panic NilDereference
    end.
Proof.
  unfold bolt.Bucket_.
  destruct (tx !! bytes_of_string "meta") as [bk|] eqn:Hbk; [|reflexivity].
  unfold bolt.Put. cbv beta iota. rewrite Hbk.
  repeat (destruct (decide _) as [Hk|_]; [vm_compute in Hk; discriminate Hk|]).
  f_equal. apply insert_overlay, Hbk.
Qed.

Lemma writeSeries_tx_eq (idx : Z) (batch : bytes) (tx : gmap bytes (gmap bytes bytes)) :
  writeSeries_tx idx batch tx =
  match writePoints ∅ batch with
  | Ok d =>
      match overlay d tx !! bytes_of_string "meta" with
      | Some _ =>
          Ok (overlay {[bytes_of_string "meta" :=
                          {[bytes_of_string "index" := u64tob idx]}]}
                      (overlay d tx))
      | None => Panic NilDereference
      end
  | Err err => Err err
  | Panic p => Panic p
  end.
Proof.
  unfold writeSeries_tx. rewrite writePoints_overlay.
  destruct (writePoints ∅ batch) as [d| |]; try reflexivity.
  rewrite put_meta_index.
  destruct (overlay d tx !! _); reflexivity.
Qed.

(** Running the transaction of [writeSeries] again on its own result changes
    nothing. *)
Lemma writeSeries_tx_idem idx batch tx tx1 :
  writeSeries_tx idx batch tx = Ok tx1 → writeSeries_tx idx batch tx1 = Ok tx1.
Proof.
  rewrite !writeSeries_tx_eq.
  destruct (writePoints ∅ batch) as [d| |]; try discriminate.
  destruct (overlay d tx !! _) as [bk|] eqn:Hbk; [|discriminate].
  intros [= <-].
  set (P := {[bytes_of_string "meta" :=
                {[bytes_of_string "index" := u64tob idx]}]}).
  assert (Hm : is_Some (overlay d (overlay P (overlay d tx))
                          !! bytes_of_string "meta")).
  { rewrite !overlay_lookup. subst P. rewrite lookup_singleton_eq.
    rewrite overlay_lookup in Hbk.
    destruct (d !! bytes_of_string "meta"), (tx !! bytes_of_string "meta");
      simpl; eauto. }
  destruct Hm as [bk' ->]. f_equal.
  rewrite !overlay_assoc. rewrite <- (overlay_assoc (overlay P d) P d).
  rewrite overlay_idemp. reflexivity.
Qed.

(** What a successful [writeSeries] leaves in the file. *)
Lemma writeSeries_ok_inv s idx batch w w1 :
  writeSeries s idx batch w = (Ok (), w1) →
  ∃ db d tx1,
    store s = Some db ∧ bolt.dbs w !! db = Some d ∧ bolt.opened d = true
    ∧ bolt.commit_fault w = None
    ∧ writeSeries_tx idx batch (default ∅ (bolt.files w !! bolt.path d)) = Ok tx1
    ∧ w1 = bolt.set_files (<[bolt.path d := tx1]> (bolt.files w)) w.
Proof.
  unfold writeSeries. destruct (store s) as [db|]; [|discriminate].
  unfold bolt.Update. destruct (bolt.dbs w !! db) as [d|] eqn:Hd; [|discriminate].
  destruct (bolt.opened d) eqn:Ho; simpl; [|discriminate].
  destruct (writeSeries_tx _ _ _) as [tx1| |] eqn:Htx; try discriminate.
  destruct (bolt.commit_fault w) eqn:Hc; [discriminate|].
  intros [= <-]. exists db, d, tx1. repeat split; assumption.
Qed.

Lemma writeSeries_idem s idx batch w w1 :
  writeSeries s idx batch w = (Ok (), w1) →
  writeSeries s idx batch w1 = (Ok (), w1).
Proof.
  intros H.
  destruct (writeSeries_ok_inv _ _ _ _ _ H)
    as (db & d & tx1 & Hs & Hd & Ho & Hc & Htx & ->).
  rewrite (writeSeries_open s idx batch
             (bolt.set_files (<[bolt.path d := tx1]> (bolt.files w)) w)
             db d Hs Hd Ho).
  unfold bolt.set_files. simpl. rewrite lookup_insert_eq. simpl.
  rewrite (writeSeries_tx_idem _ _ _ _ Htx), Hc, insert_insert_eq.
  reflexivity.
Qed.

Lemma processor_step_again wt m s w s1 w1 :
  processor_step wt m s w = Running s1 w1 →
  processor_step wt m s1 w1 = Running s1 w1.
Proof.
  unfold processor_step.
  destruct (decide (Index m < index s)) as [Hlt|Hge].
  - intros [= <- <-]. destruct (decide _); [reflexivity | contradiction].
  - destruct (decide (Type_ m = wt)) as [Ht|]; [|discriminate].
    destruct (writeSeries s (Index m) (Data m) w) as [[[]| |] w'] eqn:Hw;
      try discriminate.
    intros [= <- <-]. simpl.
    destruct (decide (Index m < Index m)) as [|_]; [lia|].
    change (writeSeries (set_index (Index m) s) (Index m) (Data m) w')
      with (writeSeries s (Index m) (Data m) w').
    rewrite (writeSeries_idem _ _ _ _ _ Hw). reflexivity.
Qed.

(** C2: processing a message twice in a row ends in the same shard and store
    as processing it once (whether the first processing applies it, discards
    it or panics); when the first processing goes through, the second changes
    neither the store nor the index, which has not gone down; and a message
    whose index is strictly below the shard's is discarded, shard and store
    untouched. *)
Theorem replay_idempotent (writeRawSeriesMessageType : Z) :
  (∀ m s w,
     processor writeRawSeriesMessageType [m; m] s w
     = processor writeRawSeriesMessageType [m] s w)
  ∧ (∀ m s w s1 w1,
       processor_step writeRawSeriesMessageType m s w = Running s1 w1 →
       processor_step writeRawSeriesMessageType m s1 w1 = Running s1 w1
       ∧ index s <= index s1)
  ∧ (∀ m s w,
       Index m < index s →
       processor_step writeRawSeriesMessageType m s w = Running s w).
Proof.
  repeat split.
  - intros m s w. simpl.
    destruct (processor_step _ m s w) as [s1 w1|] eqn:H; [|reflexivity].
    rewrite (processor_step_again _ _ _ _ _ _ H). reflexivity.
  - eapply processor_step_again; eassumption.
  - pose proof (processor_step_index writeRawSeriesMessageType m s w) as Hi.
    rewrite H in Hi. lia.
  - intros m s w Hlt. unfold processor_step.
    destruct (decide _); [reflexivity | contradiction].
Qed.

Lemma replay_idempotent_example :
  processor 1 [message_5; message_5] opened_shard opened_state
  = processor 1 [message_5] opened_shard opened_state
  ∧ index (loop_shard (processor 1 [message_5] opened_shard opened_state)) = 5
  ∧ stored_value (loop_store (processor 1 [message_5] opened_shard opened_state))
      "shard1" 7 42 = Some [Byte.x01; Byte.x02; Byte.x03].
Proof.
  split; [|split].
  - exact (proj1 (replay_idempotent 1) message_5 opened_shard opened_state).
  - reflexivity.
  - reflexivity.
Defined.

(** ** Opening and closing *)

Lemma Update_new_handle {H : Type} (p : string) (dbs0 : list bolt.DB)
    (f : gmap string (gmap bytes (gmap bytes bytes)))
    (ofault cfault : option error)
    (fn : bolt.Tx → H → result bolt.Tx * H) (h : H) :
  let W := bolt.mkState f (dbs0 ++ [bolt.mkDB p true]) ofault cfault in
  bolt.Update (length dbs0) fn h W =
  match fn (default ∅ (f !! p)) h with
  | (Ok tx, h') =>
      match cfault with
      | Some err => (Err err, h', W)
      | None => (Ok (), h', bolt.set_files (<[p := tx]> f) W)
      end
  | (Err err, h') => (Err err, h', W)
  | (Panic pn, h') => (Panic pn, h', W)
  end.
Proof.
  intros W. unfold bolt.Update. subst W. simpl.
  rewrite list_lookup_middle by reflexivity. simpl.
  destruct (fn _ h) as [[tx| |] h']; reflexivity.
Qed.

Lemma Close_new_handle (p : string) (dbs0 : list bolt.DB)
    (f : gmap string (gmap bytes (gmap bytes bytes)))
    (ofault cfault : option error) :
  bolt.Close (length dbs0)
    (bolt.mkState f (dbs0 ++ [bolt.mkDB p true]) ofault cfault)
  = bolt.mkState f (dbs0 ++ [bolt.mkDB p false]) ofault cfault.
Proof.
  unfold bolt.Close, bolt.set_dbs. simpl. f_equal.
  rewrite <- (Nat.add_0_r (length dbs0)). rewrite alter_app_r. reflexivity.
Qed.

Lemma ensured_file_lookup (files : gmap string (gmap bytes (gmap bytes bytes))) p :
  default ∅ (match files !! p with
             | Some _ => files
             | None => <[p := ∅]> files
             end !! p)
  = default ∅ (files !! p).
Proof.
  destruct (files !! p) eqn:E; [rewrite E; reflexivity|].
  rewrite lookup_insert_eq. reflexivity.
Qed.

(** The initialisation closure: the index is read from [meta.index] when it
    holds at least one byte, and the transaction always goes through unless
    the value is too short to decode. *)
Lemma open_init_eq (tx : gmap bytes (gmap bytes bytes)) (s : Shard) :
  ∃ tx',
    open_init tx s =
    let buf := default [] (meta_index tx) in
    if decide (0 < length buf)%nat then
      match btou64 buf with
      | Some i => (Ok tx', set_index i s)
      | None => (Panic IndexOutOfRange, s)
      end
    else (Ok tx', s).
Proof.
  assert (Hne : bytes_of_string "values" ≠ bytes_of_string "meta")
    by discriminate.
  unfold open_init, bolt.CreateBucketIfNotExists, meta_index.
  destruct (decide (bytes_of_string "values" = [])) as [Hv|_];
    [discriminate Hv|].
  destruct (decide (bytes_of_string "meta" = [])) as [Hm|_];
    [discriminate Hm|].
  destruct (tx !! bytes_of_string "values") as [vb|] eqn:Hvb.
  - destruct (tx !! bytes_of_string "meta") as [mb|] eqn:Hmb; simpl.
    + rewrite Hmb. simpl. eexists. reflexivity.
    + rewrite lookup_insert_eq. simpl. rewrite lookup_empty. simpl.
      eexists. reflexivity.
  - rewrite lookup_insert_ne by exact Hne.
    destruct (tx !! bytes_of_string "meta") as [mb|] eqn:Hmb; simpl.
    + rewrite lookup_insert_ne, Hmb by exact Hne. simpl.
      eexists. reflexivity.
    + rewrite lookup_insert_eq. simpl. rewrite lookup_empty. simpl.
      eexists. reflexivity.
Qed.

Lemma open_init_frame tx s :
  store (open_init tx s).2 = store s ∧ ID (open_init tx s).2 = ID s.
Proof.
  destruct (open_init_eq tx s) as [tx' ->]. simpl.
  destruct (decide _); [destruct (btou64 _)|]; split; reflexivity.
Qed.

(** [open] on a shard that holds no handle, spelled out. *)
Lemma open_unopened s p c w :
  store s = None →
  open s p c w =
  match bolt.open_fault w with
  | Some err => (Err err, s, w, [])
  | None =>
      if bolt.locked p w then (Err ErrTimeout, s, w, [])
      else
        let f := match bolt.files w !! p with
                 | Some _ => bolt.files w
                 | None => <[p := ∅]> (bolt.files w)
                 end in
        let W b g := bolt.mkState g (bolt.dbs w ++ [bolt.mkDB p b])
                                  (bolt.open_fault w) (bolt.commit_fault w) in
        let s1 := set_index 0 (set_store (Some (length (bolt.dbs w))) s) in
        match open_init (default ∅ (bolt.files w !! p)) s1 with
        | (Ok tx, s2) =>
            match bolt.commit_fault w with
            | Some err => (Err (ErrInit err), s2, W false f, [])
            | None =>
                match conn_Open c (index s2) true with
                | None =>
                    (Ok (), s2, W true (<[p := tx]> f),
                     [CallConnOpen (index s2) true; GoProcessor])
                | Some err =>
                    (Err (ErrOpenShardConn (ID s2) (index s2) err), s2,
                     W false (<[p := tx]> f), [CallConnOpen (index s2) true])
                end
            end
        | (Err err, s2) => (Err (ErrInit err), s2, W false f, [])
        | (Panic pn, s2) => (Panic pn, s2, W true f, [])
        end
  end.
Proof.
  intros Hs. unfold open. rewrite Hs. unfold bolt.Open.
  destruct (bolt.open_fault w) as [e|] eqn:Hof; [reflexivity|].
  destruct (bolt.locked p w); [reflexivity|].
  cbv zeta. rewrite <- Hof.
  rewrite (Update_new_handle p (bolt.dbs w) _ (bolt.open_fault w)
             (bolt.commit_fault w) open_init).
  cbv zeta. rewrite ensured_file_lookup.
  pose proof (open_init_frame (default ∅ (bolt.files w !! p))
                (set_index 0 (set_store (Some (length (bolt.dbs w))) s)))
    as [Hst _].
  destruct (open_init _ _) as [[tx| |] s2]; simpl in Hst.
  - destruct (bolt.commit_fault w) as [e|] eqn:Hcf.
    + unfold close. rewrite Hst, <- Hcf, Close_new_handle. reflexivity.
    + destruct (conn_Open c (index s2) true); [|reflexivity].
      unfold close. rewrite Hst. unfold bolt.set_files. simpl.
      rewrite <- Hcf, Close_new_handle. reflexivity.
  - unfold close. rewrite Hst, Close_new_handle. reflexivity.
  - reflexivity.
Qed.

Lemma btou64_u64tob N : is_uint64 N → btou64 (u64tob N) = Some N.
Proof.
  intros HN. unfold btou64, u64tob.
  rewrite <- (app_nil_r (BigEndian.PutUint64 N)).
  apply Uint64_PutUint64, HN.
Qed.

(** The initialisation closure on a store that records [N]: it goes through
    and leaves [N] in the index. *)
Lemma open_init_recorded (tx : gmap bytes (gmap bytes bytes)) (s : Shard)
    (N : Z) :
  recorded_index tx N → index s = 0 →
  ∃ tx' s2, open_init tx s = (Ok tx', s2)
            ∧ index s2 = N ∧ ID s2 = ID s ∧ store s2 = store s.
Proof.
  intros Hrec H0. destruct (open_init_eq tx s) as [tx' ->]. cbv zeta.
  destruct Hrec as [[HN Hm] | [-> [Hm|Hm]]]; rewrite Hm; simpl default.
  - destruct (decide _) as [_|Hn]; [|exfalso; apply Hn; simpl; lia].
    rewrite (btou64_u64tob N HN). eexists _, _. repeat split.
  - destruct (decide _) as [Hn|_]; [simpl in Hn; lia|].
    eexists _, _. repeat split. exact H0.
  - destruct (decide _) as [Hn|_]; [simpl in Hn; lia|].
    eexists _, _. repeat split. exact H0.
Qed.

(** C4: when the store file holds the 8-byte big-endian encoding of [N] under
    key "index" of bucket "meta" (or holds nothing there, or no byte, and
    [N = 0]), an [open] that succeeds leaves [N] in the shard's index and has
    called [conn.Open(N, true)]: the broker accepted exactly that request, it
    is the only call made on the connection, and the consumer loop is started
    after it.  If the broker refuses that request [open] does not succeed,
    whatever it would answer to another one, and unless the store fails first
    the error [open] returns carries the shard id, [N] and the broker's
    error. *)
Theorem open_recovers_index (s : Shard) (p : string) (c : MessagingConn)
    (w : bolt.State) (N : Z) :
  store s = None →
  recorded_index (default ∅ (bolt.files w !! p)) N →
  (∀ s' w' calls,
     open s p c w = (Ok (), s', w', calls) →
     index s' = N ∧ conn_Open c N true = None
     ∧ calls = [CallConnOpen N true; GoProcessor])
  ∧ (∀ err, conn_Open c N true = Some err → (open s p c w).1.1.1 ≠ Ok ())
  ∧ (∀ err,
       conn_Open c N true = Some err →
       bolt.open_fault w = None → bolt.locked p w = false →
       bolt.commit_fault w = None →
       (open s p c w).1.1.1 = Err (ErrOpenShardConn (ID s) N err)
       ∧ (open s p c w).2 = [CallConnOpen N true]).
Proof.
  intros Hs Hrec. rewrite (open_unopened s p c w Hs).
  destruct (open_init_recorded (default ∅ (bolt.files w !! p))
              (set_index 0 (set_store (Some (length (bolt.dbs w))) s))
              N Hrec eq_refl) as (tx' & s2 & Hinit & Hidx & Hid & _).
  simpl in Hid.
  split; [|split].
  - intros s' w' calls.
    destruct (bolt.open_fault w); [discriminate|].
    destruct (bolt.locked p w); [discriminate|].
    cbv zeta. rewrite Hinit, Hidx.
    destruct (bolt.commit_fault w); [discriminate|].
    destruct (conn_Open c N true) eqn:Hc; [discriminate|].
    intros [= <- <- <-]. repeat split. exact Hidx.
  - intros err Hc.
    destruct (bolt.open_fault w); [discriminate|].
    destruct (bolt.locked p w); [discriminate|].
    cbv zeta. rewrite Hinit, Hidx.
    destruct (bolt.commit_fault w); [discriminate|].
    rewrite Hc. discriminate.
  - intros err Hc Hof Hl Hcf. rewrite Hof, Hl. cbv zeta.
    rewrite Hinit, Hidx, Hcf, Hc, Hid. split; reflexivity.
Qed.

Lemma reopen_resumes_from_written_index :
  (open newShard "shard1" (conn_only 5) written_state).1.1.1 = Ok ()
  ∧ index (open newShard "shard1" (conn_only 5) written_state).1.1.2 = 5
  ∧ conn_Open (conn_only 5) 5 true = None
  ∧ (open newShard "shard1" (conn_only 5) written_state).2
    = [CallConnOpen 5 true; GoProcessor]
  ∧ (open newShard "shard1" (conn_only 4) written_state).1.1.1 ≠ Ok ().
Proof.
  assert (Hrec : recorded_index
                   (default ∅ (bolt.files written_state !! "shard1")) 5).
  { left. split; [unfold is_uint64, uint64_max; lia | reflexivity]. }
  split; [reflexivity|].
  split; [|split; [|split]].
  - exact (proj1 (proj1 (open_recovers_index newShard "shard1" (conn_only 5)
                           written_state 5 eq_refl Hrec)
                    (open newShard "shard1" (conn_only 5) written_state).1.1.2
                    (open newShard "shard1" (conn_only 5) written_state).1.2
                    (open newShard "shard1" (conn_only 5) written_state).2
                    eq_refl)).
  - reflexivity.
  - reflexivity.
  - exact (proj1 (proj2 (open_recovers_index newShard "shard1" (conn_only 4)
                           written_state 5 eq_refl Hrec))
             (ErrExternal "unexpected position") eq_refl).
Defined.

(** A successful [writeSeries] at index [idx] leaves [idx] recorded in the
    file, which is what the next [open] of that file recovers. *)
Lemma writeSeries_records_index s idx batch w w1 db d :
  writeSeries s idx batch w = (Ok (), w1) →
  store s = Some db → bolt.dbs w !! db = Some d → is_uint64 idx →
  recorded_index (default ∅ (bolt.files w1 !! bolt.path d)) idx.
Proof.
  intros H Hs Hd Hidx.
  destruct (writeSeries_ok_inv _ _ _ _ _ H)
    as (db' & d' & tx1 & Hs' & Hd' & Ho & Hc & Htx & ->).
  assert (db' = db) as -> by congruence.
  assert (d' = d) as -> by congruence.
  left. split; [exact Hidx|].
  unfold bolt.set_files. simpl. rewrite lookup_insert_eq. simpl.
  rewrite writeSeries_tx_eq in Htx.
  destruct (writePoints ∅ batch) as [dl| |]; try discriminate.
  destruct (overlay dl _ !! _) as [bk|] eqn:Hbk; [|discriminate].
  injection Htx as <-.
  unfold meta_index. rewrite overlay_lookup, lookup_singleton_eq, Hbk. simpl.
  apply lookup_union_Some_l, lookup_singleton_eq.
Qed.

(** C8: [open] on a shard that already holds a store handle returns the
    already-open error and changes neither the shard nor the store; when
    [bolt.Open] itself fails nothing was acquired; and when [open] fails after
    [bolt.Open] succeeded, with an initialisation error or a connection
    error, the handle it had opened is closed when [open] returns, so that
    every handle open afterwards was open before. *)
Theorem open_failure_unwinds (s : Shard) (p : string) (c : MessagingConn)
    (w : bolt.State) (r : result unit) (s' : Shard) (w' : bolt.State)
    (calls : list Call) :
  open s p c w = (r, s', w', calls) →
  (store s ≠ None →
     r = Err ErrShardAlreadyOpen ∧ s' = s ∧ w' = w ∧ calls = [])
  ∧ (store s = None → ∀ err w1,
       bolt.Open p w = (Err err, w1) → r = Err err ∧ s' = s ∧ w' = w)
  ∧ (store s = None → ∀ db w1 err,
       bolt.Open p w = (Ok db, w1) → r = Err err →
       store s' = Some db
       ∧ bolt.dbs w' !! db = Some (bolt.mkDB p false)
       ∧ (∀ h d, bolt.dbs w' !! h = Some d → bolt.opened d = true →
                 bolt.dbs w !! h = Some d)
       ∧ ((∃ e, err = ErrInit e ∧ calls = [])
          ∨ (∃ e, err = ErrOpenShardConn (ID s) (index s') e
                  ∧ calls = [CallConnOpen (index s') true]))).
Proof.
  intros Hopen. split; [|split].
  - intros Hs. unfold open in Hopen.
    destruct (store s); [|congruence].
    injection Hopen as <- <- <- <-. repeat split; reflexivity.
  - intros Hs err w1 HO. rewrite (open_unopened s p c w Hs) in Hopen.
    unfold bolt.Open in HO.
    destruct (bolt.open_fault w).
    + injection HO as <- <-. injection Hopen as <- <- <- <-.
      repeat split; reflexivity.
    + destruct (bolt.locked p w); [|discriminate].
      injection HO as <- <-. injection Hopen as <- <- <- <-.
      repeat split; reflexivity.
  - intros Hs db w1 err HO ->. rewrite (open_unopened s p c w Hs) in Hopen.
    unfold bolt.Open in HO.
    destruct (bolt.open_fault w); [discriminate|].
    destruct (bolt.locked p w); [discriminate|].
    injection HO as <- <-. cbv zeta in Hopen.
    pose proof (open_init_frame (default ∅ (bolt.files w !! p))
                  (set_index 0 (set_store (Some (length (bolt.dbs w))) s)))
      as [Hst Hid].
    assert (Hclosed : ∀ h d,
               (bolt.dbs w ++ [bolt.mkDB p false]) !! h = Some d →
               bolt.opened d = true → bolt.dbs w !! h = Some d).
    { intros h d Hh Hd. apply lookup_app_Some in Hh as [Hh|[_ Hh]]; [exact Hh|].
      apply list_lookup_singleton_Some in Hh as [_ <-]. discriminate. }
    destruct (open_init _ _) as [[tx| |] s2]; simpl in Hst, Hid.
    + destruct (bolt.commit_fault w).
      * injection Hopen as <- <- <- <-. split; [exact Hst|].
        split; [apply list_lookup_middle; reflexivity|].
        split; [exact Hclosed|]. left. eauto.
      * destruct (conn_Open c (index s2) true); [|discriminate].
        injection Hopen as <- <- <- <-. split; [exact Hst|].
        split; [apply list_lookup_middle; reflexivity|].
        split; [exact Hclosed|]. right. rewrite Hid. eauto.
    + injection Hopen as <- <- <- <-. split; [exact Hst|].
      split; [apply list_lookup_middle; reflexivity|].
      split; [exact Hclosed|]. left. eauto.
    + discriminate.
Qed.

Lemma open_conn_refused_closes_store :
  (open newShard "shard1" conn_refusing fresh_state).1.1.1
  = Err (ErrOpenShardConn 0 0 (ErrExternal "connection refused"))
  ∧ store (open newShard "shard1" conn_refusing fresh_state).1.1.2 = Some 0%nat
  ∧ bolt.dbs (open newShard "shard1" conn_refusing fresh_state).1.2 !! 0%nat
    = Some (bolt.mkDB "shard1" false).
Proof.
  split; [reflexivity|].
  destruct (proj2 (proj2
              (open_failure_unwinds newShard "shard1" conn_refusing fresh_state
                 (open newShard "shard1" conn_refusing fresh_state).1.1.1
                 (open newShard "shard1" conn_refusing fresh_state).1.1.2
                 (open newShard "shard1" conn_refusing fresh_state).1.2
                 (open newShard "shard1" conn_refusing fresh_state).2
                 eq_refl))
            eq_refl 0%nat
            (bolt.Open "shard1" fresh_state).2
            (ErrOpenShardConn 0 0 (ErrExternal "connection refused"))
            eq_refl eq_refl) as (Hstore & Hclosed & _).
  split; [exact Hstore | exact Hclosed].
Defined.

Lemma lifecycle_step_store s w op :
  store s ≠ None → store (lifecycle_step (s, w) op).1 = store s.
Proof.
  intros Hs. destruct op as [p c|]; simpl.
  - unfold open. destruct (store s) eqn:E; [|congruence]. simpl. exact E.
  - unfold close. destruct (store s) eqn:E; simpl; [exact E | congruence].
Qed.

Lemma lifecycle_store ops : ∀ s w,
  store s ≠ None → store (lifecycle ops s w).1 = store s.
Proof.
  induction ops as [|op ops IH]; intros s w Hs; [reflexivity|].
  unfold lifecycle in *. simpl foldl.
  pose proof (lifecycle_step_store s w op Hs) as Hstep.
  destruct (lifecycle_step (s, w) op) as [s1 w1]. simpl in Hstep.
  rewrite IH by congruence. exact Hstep.
Qed.

(** C10: [close] returns nil and leaves the shard, its [store] field
    included, as it was; so once a shard holds a handle, whatever [close] and
    [open] calls follow, the field keeps its value and every [open] returns
    the already-open error; and a shard holds a handle from the moment
    [bolt.Open] succeeded inside [open], whether that [open] then succeeded,
    failed and unwound through [close], or panicked. *)
Theorem close_keeps_store :
  (∀ s w, (close s w).1 = (Ok (), s))
  ∧ (∀ ops s w p c,
       store s ≠ None →
       store (lifecycle ops s w).1 = store s
       ∧ (open (lifecycle ops s w).1 p c (lifecycle ops s w).2).1.1.1
         = Err ErrShardAlreadyOpen)
  ∧ (∀ s p c w db w1,
       store s = None → bolt.Open p w = (Ok db, w1) →
       store (open s p c w).1.1.2 = Some db).
Proof.
  split; [|split].
  - intros s w. unfold close. destruct (store s); reflexivity.
  - intros ops s w p c Hs.
    pose proof (lifecycle_store ops s w Hs) as Hl.
    split; [exact Hl|].
    unfold open. destruct (store (lifecycle ops s w).1); [reflexivity|].
    congruence.
  - intros s p c w db w1 Hs HO. rewrite (open_unopened s p c w Hs).
    unfold bolt.Open in HO.
    destruct (bolt.open_fault w); [discriminate|].
    destruct (bolt.locked p w); [discriminate|].
    injection HO as <- <-. cbv zeta.
    pose proof (open_init_frame (default ∅ (bolt.files w !! p))
                  (set_index 0 (set_store (Some (length (bolt.dbs w))) s)))
      as [Hst _].
    destruct (open_init _ _) as [[tx| |] s2]; simpl in Hst |- *;
      try exact Hst.
    destruct (bolt.commit_fault w); [exact Hst|].
    destruct (conn_Open c (index s2) true); exact Hst.
Qed.

Lemma failed_open_then_close_stays_open :
  store (lifecycle [DoClose]
           (open newShard "shard1" conn_refusing fresh_state).1.1.2
           (open newShard "shard1" conn_refusing fresh_state).1.2).1
  = Some 0%nat
  ∧ (open (lifecycle [DoClose]
             (open newShard "shard1" conn_refusing fresh_state).1.1.2
             (open newShard "shard1" conn_refusing fresh_state).1.2).1
          "shard1" conn_ok
          (lifecycle [DoClose]
             (open newShard "shard1" conn_refusing fresh_state).1.1.2
             (open newShard "shard1" conn_refusing fresh_state).1.2).2).1.1.1
    = Err ErrShardAlreadyOpen.
Proof.
  apply (proj1 (proj2 close_keeps_store) [DoClose]
           (open newShard "shard1" conn_refusing fresh_state).1.1.2
           (open newShard "shard1" conn_refusing fresh_state).1.2
           "shard1" conn_ok).
  discriminate.
Defined.

(** ** Well-formed batches are written *)

Lemma writePoints_frames fs :
  Forall frame_ok fs → fs ≠ [] →
  Z.of_nat (length (encode_frames fs)) < 2 ^ 32 →
  ∃ d, writePoints ∅ (encode_frames fs) = Ok d.
Proof.
  induction 1 as [|f fs Hf Hfs IH]; [congruence|]. intros _ Hlen.
  assert (Hcons : encode_frames (f :: fs) = encode_frame f ++ encode_frames fs)
    by reflexivity.
  rewrite Hcons in Hlen |- *.
  rewrite writePoints_eq, writePoint_frame by exact Hf.
  assert (Hpl : (length (frame_payload f ++ encode_frames fs)
                 <= length (encode_frame f ++ encode_frames fs))%nat).
  { unfold encode_frame. rewrite !length_app. lia. }
  destruct (decide _) as [Hbad|_].
  { unfold uint32_of_len in Hbad. rewrite Z.mod_small in Hbad by lia.
    rewrite length_app in Hbad. lia. }
  destruct (decide _) as [|Hrest]; [eexists; reflexivity|].
  rewrite writePoints_overlay.
  destruct IH as [d Hd].
  - intros ->. apply Hrest. reflexivity.
  - rewrite length_app in Hlen. lia.
  - rewrite Hd. eexists. reflexivity.
Qed.

(** X21: on an open shard whose file has its "meta" bucket, with no I/O
    failure, a well-formed batch (one encoded frame or more and nothing else)
    of less than 4 GiB is written and committed: [writeSeries] returns
    nil. *)
Lemma writeSeries_well_formed s idx batch w db d :
  store s = Some db → bolt.dbs w !! db = Some d → bolt.opened d = true →
  bolt.commit_fault w = None →
  is_Some (default ∅ (bolt.files w !! bolt.path d) !! bytes_of_string "meta") →
  well_formed batch → Z.of_nat (length batch) < 2 ^ 32 →
  ∃ w1, writeSeries s idx batch w = (Ok (), w1).
Proof.
  intros Hs Hd Ho Hc [mb Hmb] (fs & Hne & Hfs & ->) Hlen.
  rewrite (writeSeries_open s idx _ w db d Hs Hd Ho), writeSeries_tx_eq.
  destruct (writePoints_frames fs Hfs Hne Hlen) as [dl ->].
  assert (Hm : is_Some (overlay dl (default ∅ (bolt.files w !! bolt.path d))
                          !! bytes_of_string "meta")).
  { rewrite overlay_lookup, Hmb. destruct (dl !! _); simpl; eauto. }
  destruct Hm as [bk ->]. rewrite Hc. eexists. reflexivity.
Qed.

(** Where [int] has 32 bits, a series id of 2^31 or more converts to a
    negative [int], and [ShardBySeriesID] panics unless the shard count
    divides it. *)
Example ShardBySeriesID_int32 :
  ShardBySeriesID 32 (mkShardGroup 1 100 200 [newShard; newShard])
                  2147483649 = Panic IndexOutOfRange.
Proof. reflexivity. Qed.

(** ** More on the point codec *)

Lemma byte_of_Z_eq v b : v mod 256 = Z_of_byte b → byte_of_Z v = b.
Proof.
  intros H. unfold byte_of_Z. rewrite H. unfold Z_of_byte.
  rewrite N2Z.id, Byte.of_to_N. reflexivity.
Qed.

Lemma PutUint32_Uint32 b0 b1 b2 b3 v :
  BigEndian.Uint32 [b0; b1; b2; b3] = Some v →
  BigEndian.PutUint32 v = [b0; b1; b2; b3].
Proof.
  rewrite Uint32_sum. intros [= <-].
  pose proof (Z_of_byte_range b0). pose proof (Z_of_byte_range b1).
  pose proof (Z_of_byte_range b2). pose proof (Z_of_byte_range b3).
  unfold BigEndian.PutUint32.
  repeat f_equal; apply byte_of_Z_eq; rewrite ?Z.shiftr_div_pow2 by lia;
    Z.div_mod_to_equations; lia.
Qed.

Lemma PutUint64_Uint64 b0 b1 b2 b3 b4 b5 b6 b7 v :
  BigEndian.Uint64 [b0; b1; b2; b3; b4; b5; b6; b7] = Some v →
  BigEndian.PutUint64 v = [b0; b1; b2; b3; b4; b5; b6; b7] ∧ is_uint64 v.
Proof.
  rewrite Uint64_sum. intros [= <-].
  pose proof (Z_of_byte_range b0). pose proof (Z_of_byte_range b1).
  pose proof (Z_of_byte_range b2). pose proof (Z_of_byte_range b3).
  pose proof (Z_of_byte_range b4). pose proof (Z_of_byte_range b5).
  pose proof (Z_of_byte_range b6). pose proof (Z_of_byte_range b7).
  split; [|unfold is_uint64, uint64_max; lia].
  unfold BigEndian.PutUint64.
  repeat f_equal; apply byte_of_Z_eq; rewrite ?Z.shiftr_div_pow2 by lia;
    Z.div_mod_to_equations; lia.
Qed.

Lemma uint64_int64_roundtrip u :
  is_uint64 u →
  uint64_of_int64 (int64_of_uint64 u) = u ∧ is_int64 (int64_of_uint64 u).
Proof.
  unfold is_uint64, uint64_max, is_int64, int64_of_uint64, uint64_of_int64.
  intros Hu. destruct (Z.ltb_spec u (2 ^ 63)); split; try lia.
  - apply Z.mod_small. lia.
  - rewrite <- (Z.mod_add _ 1) by lia.
    replace (u - 2 ^ 64 + 1 * 2 ^ 64) with u by lia. apply Z.mod_small. lia.
Qed.

(** X1: every slice of exactly 16 bytes decodes, to a [uint32] series id, a
    [uint32] payload length and an [int64] timestamp, and encoding these
    gives the 16 bytes back: the header codec is a bijection between 16-byte
    slices and such triples. *)
Theorem unmarshal_marshal_inverse (b : bytes) :
  length b = pointHeaderSize →
  ∃ seriesID payloadLength timestamp,
    unmarshalPointHeader b = Some (seriesID, payloadLength, timestamp)
    ∧ is_uint32 seriesID ∧ is_uint32 payloadLength ∧ is_int64 timestamp
    ∧ marshalPointHeader seriesID payloadLength timestamp = b.
Proof.
  intros Hlen.
  do 16 (destruct b as [|? b]; [discriminate Hlen|]).
  destruct b; [|discriminate Hlen]. clear Hlen.
  unfold unmarshalPointHeader.
  change (slice ?l 0 4) with (Some [b0; b1; b2; b3]).
  change (slice ?l 4 8) with (Some [b4; b5; b6; b7]).
  change (slice ?l 8 16) with (Some [b8; b9; b10; b11; b12; b13; b14; b15]).
  cbn [mbind option_bind].
  destruct (BigEndian.Uint32 [b0; b1; b2; b3]) as [sid|] eqn:Hs;
    [|discriminate Hs].
  destruct (BigEndian.Uint32 [b4; b5; b6; b7]) as [pl|] eqn:Hp;
    [|discriminate Hp].
  destruct (BigEndian.Uint64 [b8; b9; b10; b11; b12; b13; b14; b15])
    as [u|] eqn:Hu; [|discriminate Hu].
  cbn [mbind option_bind].
  destruct (PutUint64_Uint64 _ _ _ _ _ _ _ _ _ Hu) as [Hput Hur].
  destruct (uint64_int64_roundtrip u Hur) as [Hrt Hir].
  exists sid, pl, (int64_of_uint64 u).
  split; [reflexivity|].
  split; [exact (Uint32_range _ _ Hs)|].
  split; [exact (Uint32_range _ _ Hp)|].
  split; [exact Hir|].
  rewrite marshalPointHeader_app, Hrt, Hput.
  rewrite (PutUint32_Uint32 _ _ _ _ _ Hs), (PutUint32_Uint32 _ _ _ _ _ Hp).
  reflexivity.
Qed.

Lemma unmarshal_marshal_inverse_example :
  ∃ seriesID payloadLength timestamp,
    unmarshalPointHeader (replicate 16 Byte.xff)
      = Some (seriesID, payloadLength, timestamp)
    ∧ is_uint32 seriesID ∧ is_uint32 payloadLength ∧ is_int64 timestamp
    ∧ marshalPointHeader seriesID payloadLength timestamp
      = replicate 16 Byte.xff.
Proof.
  apply (unmarshal_marshal_inverse (replicate 16 Byte.xff)). reflexivity.
Defined.

(** X2: on a slice of 16 bytes or more [unmarshalPointHeader] returns without
    panicking, and what it returns depends on the first 16 bytes only: bytes
    that follow the header are never read. *)
Theorem unmarshalPointHeader_domain (b : bytes) :
  (pointHeaderSize <= length b)%nat →
  is_Some (unmarshalPointHeader b)
  ∧ unmarshalPointHeader b = unmarshalPointHeader (take pointHeaderSize b)
  ∧ (∀ rest, unmarshalPointHeader (take pointHeaderSize b ++ rest)
             = unmarshalPointHeader b).
Proof.
  intros Hlen. split; [apply unmarshalPointHeader_total, Hlen|].
  do 16 (destruct b as [|? b];
         [unfold pointHeaderSize in Hlen; simpl in Hlen; lia|]).
  split; [reflexivity|]. intros rest. reflexivity.
Qed.

Lemma unmarshalPointHeader_domain_example :
  is_Some (unmarshalPointHeader (marshalPointHeader 7 3 (-42) ++ [Byte.x01]))
  ∧ unmarshalPointHeader (marshalPointHeader 7 3 (-42) ++ [Byte.x01])
    = unmarshalPointHeader
        (take pointHeaderSize (marshalPointHeader 7 3 (-42) ++ [Byte.x01]))
  ∧ (∀ rest,
       unmarshalPointHeader
         (take pointHeaderSize (marshalPointHeader 7 3 (-42) ++ [Byte.x01])
            ++ rest)
       = unmarshalPointHeader (marshalPointHeader 7 3 (-42) ++ [Byte.x01])).
Proof.
  apply (unmarshalPointHeader_domain
           (marshalPointHeader 7 3 (-42) ++ [Byte.x01])).
  unfold pointHeaderSize. simpl. lia.
Defined.

(** ** Reading back what was written *)

Lemma u32tob_inj a b : is_uint32 a → is_uint32 b → u32tob a = u32tob b → a = b.
Proof.
  intros Ha Hb H. apply (f_equal BigEndian.Uint32) in H. unfold u32tob in H.
  rewrite <- (app_nil_r (BigEndian.PutUint32 a)) in H.
  rewrite <- (app_nil_r (BigEndian.PutUint32 b)) in H.
  rewrite !Uint32_PutUint32 in H by assumption. congruence.
Qed.

Lemma timestamp_key_inj a b :
  is_int64 a → is_int64 b →
  u64tob (uint64_of_int64 a) = u64tob (uint64_of_int64 b) → a = b.
Proof.
  intros Ha Hb H. apply (f_equal btou64) in H.
  rewrite !btou64_u64tob in H by apply uint64_of_int64_range.
  injection H as H. apply (f_equal int64_of_uint64) in H.
  rewrite !int64_uint64_roundtrip in H by assumption. exact H.
Qed.

Lemma get2_overlay_single (tx : gmap bytes (gmap bytes bytes))
    (b0 k0 v b k : bytes) :
  get2 (overlay {[b0 := {[k0 := v]}]} tx) b k
  = if decide (b = b0 ∧ k = k0) then Some v else get2 tx b k.
Proof.
  unfold get2. rewrite overlay_lookup.
  destruct (decide (b = b0)) as [->|Hb].
  - rewrite lookup_singleton_eq.
    destruct (decide (k = k0)) as [->|Hk].
    + rewrite decide_True by (split; reflexivity).
      destruct (tx !! b0) as [bk|]; simpl.
      * apply lookup_union_Some_l, lookup_singleton_eq.
      * apply lookup_singleton_eq.
    + rewrite decide_False by (intros [_ ?]; contradiction).
      destruct (tx !! b0) as [bk|]; simpl.
      * rewrite lookup_union_r; [reflexivity|].
        apply lookup_singleton_ne. congruence.
      * apply lookup_singleton_ne. congruence.
  - rewrite lookup_singleton_ne by congruence.
    rewrite decide_False by (intros [? _]; contradiction).
    destruct (tx !! b); reflexivity.
Qed.

Lemma encode_frames_nil fs : encode_frames fs = [] → fs = [].
Proof.
  destruct fs as [|f fs]; [reflexivity|]. intros H.
  change (encode_frames (f :: fs))
    with (encode_frame f ++ encode_frames fs) in H.
  apply (f_equal length) in H. unfold encode_frame in H.
  rewrite !length_app, marshalPointHeader_length in H.
  unfold pointHeaderSize in H. simpl in H. lia.
Qed.

(** A batch of encoded frames that the loop accepts has stored the frames
    one after the other. *)
Lemma writePoints_frames_fold fs :
  Forall frame_ok fs → ∀ tx tx',
  writePoints tx (encode_frames fs) = Ok tx' →
  tx' = foldl (λ acc f, overlay (frame_delta f) acc) tx fs.
Proof.
  induction 1 as [|f fs Hf Hfs IH]; intros tx tx'.
  - simpl. rewrite writePoints_eq. discriminate.
  - assert (Hcons : encode_frames (f :: fs) = encode_frame f ++ encode_frames fs)
      by reflexivity.
    rewrite Hcons, writePoints_eq, writePoint_frame by exact Hf.
    destruct (decide _); [discriminate|].
    destruct (decide _) as [H0|_].
    + apply length_zero_iff_nil, encode_frames_nil in H0. subst fs.
      intros [= <-]. reflexivity.
    + intros H. simpl. apply IH. exact H.
Qed.

Lemma get2_frames fs seriesID timestamp :
  Forall frame_ok fs → is_uint32 seriesID → is_int64 timestamp → ∀ tx,
  get2 (foldl (λ acc f, overlay (frame_delta f) acc) tx fs)
       (u32tob seriesID) (u64tob (uint64_of_int64 timestamp))
  = match last_write fs seriesID timestamp with
    | Some v => Some v
    | None => get2 tx (u32tob seriesID) (u64tob (uint64_of_int64 timestamp))
    end.
Proof.
  intros Hfs Hs Ht. induction Hfs as [|f fs Hf Hfs IH]; intros tx;
    [reflexivity|].
  simpl. rewrite IH.
  destruct (last_write fs seriesID timestamp); [reflexivity|].
  unfold frame_delta. rewrite get2_overlay_single.
  destruct Hf as (Hfs' & Hft & _).
  destruct (decide (frame_series f = seriesID ∧ frame_timestamp f = timestamp))
    as [[<- <-]|Hne].
  - rewrite decide_True by (split; reflexivity). reflexivity.
  - rewrite decide_False; [reflexivity|]. intros [Hb Hk]. apply Hne. split.
    + symmetry. apply u32tob_inj; assumption.
    + symmetry. apply timestamp_key_inj; assumption.
Qed.

Lemma readSeries_open s seriesID timestamp w db d :
  store s = Some db → bolt.dbs w !! db = Some d → bolt.opened d = true →
  readSeries s seriesID timestamp w
  = Ok (get2 (file_of w d) (u32tob seriesID)
             (u64tob (uint64_of_int64 timestamp))).
Proof.
  intros Hs Hd Ho. unfold readSeries, View. rewrite Hs, Hd, Ho. simpl.
  unfold readSeries_tx, bolt.Bucket_, bolt.Get, get2, file_of.
  destruct (default ∅ (bolt.files w !! bolt.path d) !! u32tob seriesID)
    eqn:E; simpl; rewrite ?E; reflexivity.
Qed.

(** X3: [writeSeries] is all or nothing and touches one file only: unless it
    returns nil the store state is exactly what it was, and in every case the
    handles, the environment and the files of other paths are unchanged. *)
Theorem writeSeries_atomic :
  ∀ s idx batch w,
    ((writeSeries s idx batch w).1 ≠ Ok () → (writeSeries s idx batch w).2 = w)
    ∧ bolt.dbs (writeSeries s idx batch w).2 = bolt.dbs w
    ∧ bolt.open_fault (writeSeries s idx batch w).2 = bolt.open_fault w
    ∧ bolt.commit_fault (writeSeries s idx batch w).2 = bolt.commit_fault w
    ∧ (∀ db d p, store s = Some db → bolt.dbs w !! db = Some d →
                 p ≠ bolt.path d →
                 bolt.files (writeSeries s idx batch w).2 !! p
                 = bolt.files w !! p).
Proof.
  intros s idx batch w. unfold writeSeries.
  destruct (store s) as [db|]; [|repeat split; reflexivity].
  unfold bolt.Update. destruct (bolt.dbs w !! db) as [d|] eqn:Hd;
    [|repeat split; reflexivity].
  destruct (bolt.opened d); simpl; [|repeat split; reflexivity].
  destruct (writeSeries_tx idx batch _) as [tx| |];
    [|repeat split; reflexivity..].
  destruct (bolt.commit_fault w) eqn:Hc; simpl.
  - repeat split; try reflexivity; congruence.
  - split; [intros H; contradiction H; reflexivity|].
    repeat split; try reflexivity; try congruence.
    intros db' d' p [= <-] Hd' Hp. rewrite Hd in Hd'. injection Hd' as <-.
    apply lookup_insert_ne. congruence.
Qed.

(** X4: after a batch of encoded frames was written, [readSeries] returns,
    for every series and timestamp, the payload of the last frame of the
    batch for that series and timestamp, and what it returned before the
    write when the batch has no such frame. *)
Theorem read_your_writes (s : Shard) (idx : Z) (fs : list Frame)
    (w w1 : bolt.State) (seriesID timestamp : Z) :
  Forall frame_ok fs → is_uint32 seriesID → is_int64 timestamp →
  writeSeries s idx (encode_frames fs) w = (Ok (), w1) →
  readSeries s seriesID timestamp w1
  = match last_write fs seriesID timestamp with
    | Some v => Ok (Some v)
    | None => readSeries s seriesID timestamp w
    end.
Proof.
  intros Hfs Hsid Hts Hw.
  destruct (writeSeries_ok_inv _ _ _ _ _ Hw)
    as (db & d & tx1 & Hs & Hd & Ho & Hc & Htx & ->).
  rewrite (readSeries_open s seriesID timestamp w db d Hs Hd Ho).
  rewrite (readSeries_open s seriesID timestamp
             (bolt.set_files (<[bolt.path d := tx1]> (bolt.files w)) w)
             db d Hs Hd Ho).
  unfold file_of at 1. unfold bolt.set_files. simpl.
  rewrite lookup_insert_eq. simpl.
  unfold writeSeries_tx in Htx.
  destruct (writePoints _ _) as [tx'| |] eqn:Hwp; try discriminate.
  rewrite put_meta_index in Htx.
  destruct (tx' !! bytes_of_string "meta"); [|discriminate].
  injection Htx as <-.
  rewrite get2_overlay_single.
  rewrite decide_False.
  2:{ intros [_ Hk]. apply (f_equal length) in Hk. discriminate Hk. }
  rewrite (writePoints_frames_fold fs Hfs _ _ Hwp).
  rewrite (get2_frames fs seriesID timestamp Hfs Hsid Hts).
  destruct (last_write fs seriesID timestamp); reflexivity.
Qed.

Lemma read_your_writes_example :
  readSeries opened_shard 7 42
    (writeSeries opened_shard 5 (encode_frames [frame_7_42]) opened_state).2
  = Ok (Some [Byte.x01; Byte.x02; Byte.x03]).
Proof.
  apply (read_your_writes opened_shard 5 [frame_7_42] opened_state
           (writeSeries opened_shard 5 (encode_frames [frame_7_42])
              opened_state).2 7 42).
  - repeat constructor; unfold is_uint32, is_int64, uint32_max; simpl; lia.
  - unfold is_uint32, uint32_max. lia.
  - unfold is_int64. lia.
  - reflexivity.
Defined.

(** ** Dropping a series *)

Lemma dropSeries_tx_eq (seriesID : Z) (tx : gmap bytes (gmap bytes bytes)) :
  dropSeries_tx seriesID tx = Ok (delete (u32tob seriesID) tx).
Proof.
  unfold dropSeries_tx, DeleteBucket.
  destruct (tx !! u32tob seriesID) eqn:E; [reflexivity|].
  rewrite decide_True by reflexivity. rewrite delete_id by exact E.
  reflexivity.
Qed.

Lemma dropSeries_open s seriesID w db d :
  store s = Some db → bolt.dbs w !! db = Some d → bolt.opened d = true →
  dropSeries s seriesID w =
  match bolt.commit_fault w with
  | Some err => (Err err, w)
  | None =>
      (Ok (), bolt.set_files
                (<[bolt.path d := delete (u32tob seriesID) (file_of w d)]>
                   (bolt.files w)) w)
  end.
Proof.
  intros Hs Hd Ho. unfold dropSeries, bolt.Update. rewrite Hs, Hd, Ho. simpl.
  rewrite dropSeries_tx_eq. destruct (bolt.commit_fault w); reflexivity.
Qed.

Lemma dropSeries_dbs s seriesID w :
  bolt.dbs (dropSeries s seriesID w).2 = bolt.dbs w.
Proof.
  unfold dropSeries. destruct (store s) as [db|]; [|reflexivity].
  unfold bolt.Update. destruct (bolt.dbs w !! db) as [d|]; [|reflexivity].
  destruct (bolt.opened d); simpl; [|reflexivity].
  rewrite dropSeries_tx_eq. destruct (bolt.commit_fault w); reflexivity.
Qed.

(** X5: the errors of [Shard.dropSeries]: on a shard without a store it
    does nothing and returns nil; on an open shard only a failing commit
    makes it fail, a series that has no bucket being no error; whenever it
    fails the store state is what it was; and dropping a series a second
    time changes nothing more. *)
Theorem dropSeries_errors :
  ∀ s seriesID w,
    (store s = None → dropSeries s seriesID w = (Ok (), w))
    ∧ (shard_open s w → bolt.commit_fault w = None →
       (dropSeries s seriesID w).1 = Ok ())
    ∧ ((dropSeries s seriesID w).1 ≠ Ok () → (dropSeries s seriesID w).2 = w)
    ∧ dropSeries s seriesID (dropSeries s seriesID w).2
      = dropSeries s seriesID w.
Proof.
  intros s seriesID w. split; [|split; [|split]].
  - intros Hs. unfold dropSeries. rewrite Hs. reflexivity.
  - intros (db & d & Hs & Hd & Ho) Hc.
    rewrite (dropSeries_open s seriesID w db d Hs Hd Ho), Hc. reflexivity.
  - unfold dropSeries. destruct (store s) as [db|]; [|reflexivity].
    unfold bolt.Update. destruct (bolt.dbs w !! db) as [d|]; [|reflexivity].
    destruct (bolt.opened d); simpl; [|reflexivity].
    rewrite dropSeries_tx_eq. destruct (bolt.commit_fault w); [reflexivity|].
    simpl. intros H. contradiction H. reflexivity.
  - unfold dropSeries. destruct (store s) as [db|]; [|reflexivity].
    unfold bolt.Update. destruct (bolt.dbs w !! db) as [d|] eqn:Hd;
      [|simpl; rewrite Hd; reflexivity].
    destruct (bolt.opened d) eqn:Ho; simpl; [|rewrite Hd, Ho; reflexivity].
    rewrite dropSeries_tx_eq.
    destruct (bolt.commit_fault w) eqn:Hc; simpl.
    + rewrite Hd, Ho. simpl. rewrite dropSeries_tx_eq, Hc. reflexivity.
    + rewrite Hd, Ho. simpl. rewrite dropSeries_tx_eq, Hc.
      rewrite lookup_insert_eq. simpl.
      rewrite delete_delete_eq, insert_insert_eq. reflexivity.
Qed.

(** X6: after [Shard.dropSeries] returned nil on an open shard, [readSeries]
    returns nil for that series at every timestamp, and what it returned
    before for every other series. *)
Theorem dropSeries_then_read (s : Shard) (seriesID : Z) (w w1 : bolt.State) :
  shard_open s w → is_uint32 seriesID →
  dropSeries s seriesID w = (Ok (), w1) →
  (∀ timestamp, readSeries s seriesID timestamp w1 = Ok None)
  ∧ (∀ other timestamp,
       is_uint32 other → other ≠ seriesID →
       readSeries s other timestamp w1 = readSeries s other timestamp w).
Proof.
  intros (db & d & Hs & Hd & Ho) Hsid.
  rewrite (dropSeries_open s seriesID w db d Hs Hd Ho).
  destruct (bolt.commit_fault w); [discriminate|]. intros [= <-].
  set (W := bolt.set_files
              (<[bolt.path d := delete (u32tob seriesID) (file_of w d)]>
                 (bolt.files w)) w).
  assert (HW : file_of W d = delete (u32tob seriesID) (file_of w d)).
  { unfold file_of at 1. subst W. unfold bolt.set_files. simpl.
    rewrite lookup_insert_eq. reflexivity. }
  split.
  - intros timestamp.
    rewrite (readSeries_open s seriesID timestamp W db d Hs Hd Ho), HW.
    unfold get2. rewrite lookup_delete_eq. reflexivity.
  - intros other timestamp Ho' Hne.
    rewrite (readSeries_open s other timestamp W db d Hs Hd Ho), HW.
    rewrite (readSeries_open s other timestamp w db d Hs Hd Ho).
    unfold get2. rewrite lookup_delete_ne; [reflexivity|].
    intros H. apply Hne. symmetry. apply u32tob_inj; assumption.
Qed.

Lemma dropSeries_then_read_example :
  (∀ timestamp,
     readSeries opened_shard 7 timestamp
       (dropSeries opened_shard 7
          (writeSeries opened_shard 5 (encode_frames [frame_7_42])
             opened_state).2).2 = Ok None)
  ∧ (∀ other timestamp,
       is_uint32 other → other ≠ 7 →
       readSeries opened_shard other timestamp
         (dropSeries opened_shard 7
            (writeSeries opened_shard 5 (encode_frames [frame_7_42])
               opened_state).2).2
       = readSeries opened_shard other timestamp
           (writeSeries opened_shard 5 (encode_frames [frame_7_42])
              opened_state).2).
Proof.
  apply (dropSeries_then_read opened_shard 7
           (writeSeries opened_shard 5 (encode_frames [frame_7_42])
              opened_state).2).
  - exists 0%nat, (bolt.mkDB "shard1" true). repeat split; reflexivity.
  - unfold is_uint32, uint32_max. lia.
  - reflexivity.
Defined.

Lemma meta_series_bucket : u32tob meta_series = bytes_of_string "meta".
Proof. reflexivity. Qed.

(** X7: series buckets share the root of the store with the "meta" bucket,
    and the series id 1835365473 is encoded as the bytes "meta".  On an open
    shard, dropping that series succeeds and deletes the "meta" bucket with
    the recorded index; from then on, writing a frame of any other series
    panics on the nil bucket and stores nothing. *)
Theorem dropSeries_meta_series (s : Shard) (w : bolt.State) (db : nat)
    (d : bolt.DB) :
  store s = Some db → bolt.dbs w !! db = Some d → bolt.opened d = true →
  bolt.commit_fault w = None →
  (dropSeries s meta_series w).1 = Ok ()
  ∧ meta_index (file_of (dropSeries s meta_series w).2 d) = None
  ∧ (∀ idx f,
       frame_ok f → frame_series f ≠ meta_series →
       writeSeries s idx (encode_frames [f]) (dropSeries s meta_series w).2
       = (Panic NilDereference, (dropSeries s meta_series w).2)).
Proof.
  intros Hs Hd Ho Hc.
  rewrite (dropSeries_open s meta_series w db d Hs Hd Ho), Hc.
  set (W := bolt.set_files
              (<[bolt.path d := delete (u32tob meta_series) (file_of w d)]>
                 (bolt.files w)) w).
  assert (HW : file_of W d = delete (u32tob meta_series) (file_of w d)).
  { unfold file_of at 1. subst W. unfold bolt.set_files. simpl.
    rewrite lookup_insert_eq. reflexivity. }
  cbn [fst snd]. split; [reflexivity|]. split.
  - rewrite HW. unfold meta_index. rewrite <- meta_series_bucket.
    rewrite lookup_delete_eq. reflexivity.
  - intros idx f Hf Hne.
    rewrite (writeSeries_open s idx _ W db d Hs Hd Ho).
    fold (file_of W d). rewrite HW. unfold writeSeries_tx.
    change (encode_frames [f]) with (encode_frame f ++ []).
    rewrite writePoints_eq, writePoint_frame by exact Hf.
    destruct Hf as (Hser & _ & Hlen).
    destruct (decide _) as [Hbad|_].
    { unfold uint32_of_len in Hbad. rewrite app_nil_r in Hbad.
      unfold uint32_max in Hlen. rewrite Z.mod_small in Hbad by lia. lia. }
    cbn [length]. rewrite decide_True by reflexivity.
    rewrite put_meta_index, overlay_lookup.
    rewrite lookup_singleton_ne.
    + rewrite <- meta_series_bucket, lookup_delete_eq. reflexivity.
    + rewrite <- meta_series_bucket. intros H. apply Hne.
      apply u32tob_inj; [exact Hser | | exact H].
      unfold is_uint32, uint32_max, meta_series. lia.
Qed.

Lemma dropSeries_meta_series_example :
  (dropSeries opened_shard meta_series opened_state).1 = Ok ()
  ∧ meta_index (file_of (dropSeries opened_shard meta_series opened_state).2
                        (bolt.mkDB "shard1" true)) = None
  ∧ (∀ idx f,
       frame_ok f → frame_series f ≠ meta_series →
       writeSeries opened_shard idx (encode_frames [f])
         (dropSeries opened_shard meta_series opened_state).2
       = (Panic NilDereference,
          (dropSeries opened_shard meta_series opened_state).2)).
Proof.
  apply (dropSeries_meta_series opened_shard opened_state 0%nat
           (bolt.mkDB "shard1" true)); reflexivity.
Defined.

(** ** Dropping a series in every shard of a group *)

Lemma dropSeries_not_ok s seriesID w :
  (dropSeries s seriesID w).1 ≠ Ok () → (dropSeries s seriesID w).2 = w.
Proof.
  unfold dropSeries. destruct (store s) as [db|]; [|reflexivity].
  unfold bolt.Update. destruct (bolt.dbs w !! db) as [d|]; [|reflexivity].
  destruct (bolt.opened d); simpl; [|reflexivity].
  rewrite dropSeries_tx_eq. destruct (bolt.commit_fault w); [reflexivity|].
  simpl. intros H. contradiction H. reflexivity.
Qed.

Lemma dropSeries_absent s seriesID w q :
  default ∅ (bolt.files w !! q) !! u32tob seriesID = None →
  default ∅ (bolt.files (dropSeries s seriesID w).2 !! q) !! u32tob seriesID
  = None.
Proof.
  intros Habs. unfold dropSeries. destruct (store s) as [db|]; [|exact Habs].
  unfold bolt.Update. destruct (bolt.dbs w !! db) as [d|]; [|exact Habs].
  destruct (bolt.opened d); simpl; [|exact Habs].
  rewrite dropSeries_tx_eq. destruct (bolt.commit_fault w); [exact Habs|].
  simpl. destruct (decide (bolt.path d = q)) as [<-|Hq].
  - rewrite lookup_insert_eq. simpl. apply lookup_delete_eq.
  - rewrite lookup_insert_ne by exact Hq. exact Habs.
Qed.

Lemma dropSeries_shards_ok shards seriesID : ∀ w w1,
  dropSeries_shards shards seriesID w = (Ok (), w1) →
  bolt.dbs w1 = bolt.dbs w
  ∧ (∀ q, default ∅ (bolt.files w !! q) !! u32tob seriesID = None →
          default ∅ (bolt.files w1 !! q) !! u32tob seriesID = None)
  ∧ (∀ sh db d, sh ∈ shards → store sh = Some db →
                bolt.dbs w !! db = Some d → bolt.opened d = true →
                file_of w1 d !! u32tob seriesID = None).
Proof.
  induction shards as [|s shards IH]; intros w w1; simpl.
  - intros [= <-]. split; [reflexivity|]. split; [auto|].
    intros sh db d Hin. apply elem_of_nil in Hin. contradiction.
  - pose proof (dropSeries_dbs s seriesID w) as Hdbs.
    pose proof (dropSeries_absent s seriesID w) as Habs.
    destruct (dropSeries s seriesID w) as [[[]| |] w'] eqn:Hdrop;
      try discriminate.
    simpl in Hdbs, Habs. intros Hrest.
    destruct (IH w' w1 Hrest) as (Hd1 & Ha1 & Hm1).
    split; [congruence|]. split; [auto|].
    intros sh db d Hin Hs Hd Ho. apply elem_of_cons in Hin as [->|Hin].
    + apply Ha1.
      rewrite (dropSeries_open s seriesID w db d Hs Hd Ho) in Hdrop.
      destruct (bolt.commit_fault w); [discriminate|].
      injection Hdrop as <-. unfold bolt.set_files. simpl.
      rewrite lookup_insert_eq. simpl. apply lookup_delete_eq.
    + apply (Hm1 sh db d Hin Hs); [congruence | exact Ho].
Qed.

(** X8: when [ShardGroup.dropSeries] returns nil, [readSeries] returns nil
    for that series, at every timestamp, on every open shard of the
    group. *)
Theorem ShardGroup_dropSeries_drops (g : ShardGroup) (seriesID : Z)
    (w w1 : bolt.State) :
  ShardGroup_dropSeries g seriesID w = (Ok (), w1) →
  ∀ sh timestamp,
    sh ∈ Shards g → shard_open sh w →
    readSeries sh seriesID timestamp w1 = Ok None.
Proof.
  intros Hdrop sh timestamp Hin (db & d & Hs & Hd & Ho).
  destruct (dropSeries_shards_ok _ _ _ _ Hdrop) as (Hdbs & _ & Hm).
  rewrite (readSeries_open sh seriesID timestamp w1 db d Hs);
    [| congruence | exact Ho].
  unfold get2. rewrite (Hm sh db d Hin Hs Hd Ho). reflexivity.
Qed.

Lemma ShardGroup_dropSeries_drops_example :
  readSeries shard_c 7 42
    (writeSeries shard_c 5 (encode_frames [frame_7_42]) state_abc).2
  = Ok (Some [Byte.x01; Byte.x02; Byte.x03])
  ∧ readSeries shard_c 7 42
      (ShardGroup_dropSeries (mkShardGroup 2 100 200 [shard_a; shard_c]) 7
         (writeSeries shard_c 5 (encode_frames [frame_7_42]) state_abc).2).2
    = Ok None.
Proof.
  split; [reflexivity|].
  apply (ShardGroup_dropSeries_drops
           (mkShardGroup 2 100 200 [shard_a; shard_c]) 7
           (writeSeries shard_c 5 (encode_frames [frame_7_42]) state_abc).2).
  - reflexivity.
  - repeat constructor.
  - exists 2%nat, (bolt.mkDB "c" true). repeat split; reflexivity.
Defined.

(** X9: [ShardGroup.dropSeries] stops at the first shard whose [dropSeries]
    fails and returns its error: the shards before it have dropped the
    series, the failing shard and the shards after it are left as they
    were. *)
Theorem ShardGroup_dropSeries_aborts (g : ShardGroup) (pre post : list Shard)
    (sh : Shard) (seriesID : Z) (w w1 : bolt.State) (err : error) :
  Shards g = pre ++ sh :: post →
  dropSeries_shards pre seriesID w = (Ok (), w1) →
  (dropSeries sh seriesID w1).1 = Err err →
  ShardGroup_dropSeries g seriesID w = (Err err, w1).
Proof.
  unfold ShardGroup_dropSeries. intros -> Hpre Hsh.
  revert w Hpre. induction pre as [|s pre IH]; intros w; simpl.
  - intros [= <-].
    pose proof (dropSeries_not_ok sh seriesID w) as Hsame.
    destruct (dropSeries sh seriesID w) as [[[]| |] w'];
      simpl in Hsh, Hsame; try discriminate.
    injection Hsh as <-. rewrite Hsame by discriminate. reflexivity.
  - destruct (dropSeries s seriesID w) as [[[]| |] w']; try discriminate.
    apply IH.
Qed.

Lemma ShardGroup_dropSeries_aborts_example :
  ShardGroup_dropSeries group_abc 7 state_abc
  = (Err ErrDatabaseNotOpen, (dropSeries shard_a 7 state_abc).2).
Proof.
  apply (ShardGroup_dropSeries_aborts group_abc [shard_a] [shard_c] shard_b 7
           state_abc (dropSeries shard_a 7 state_abc).2 ErrDatabaseNotOpen);
    reflexivity.
Defined.

(** ** After close *)

Lemma Close_lookup_eq db w d :
  bolt.dbs w !! db = Some d →
  bolt.dbs (bolt.Close db w) !! db = Some (bolt.mkDB (bolt.path d) false).
Proof.
  intros Hd. unfold bolt.Close, bolt.set_dbs. simpl.
  rewrite list_lookup_alter, Hd. rewrite decide_True by reflexivity.
  reflexivity.
Qed.

Lemma Close_lookup_ne db w h :
  h ≠ db → bolt.dbs (bolt.Close db w) !! h = bolt.dbs w !! h.
Proof.
  intros Hne. unfold bolt.Close, bolt.set_dbs. simpl.
  apply list_lookup_alter_ne. congruence.
Qed.

(** X10: once [close] was called on a shard that holds a handle, the files
    are as they were, and [writeSeries], [readSeries] and [dropSeries] on
    that shard all return bolt's database-not-open error and change nothing;
    a consumer loop still running on it panics on the next message it has to
    apply. *)
Theorem close_then_use (s : Shard) (w : bolt.State) (db : nat) (d : bolt.DB) :
  store s = Some db → bolt.dbs w !! db = Some d →
  bolt.files (close s w).2 = bolt.files w
  ∧ (∀ idx batch,
       writeSeries s idx batch (close s w).2
       = (Err ErrDatabaseNotOpen, (close s w).2))
  ∧ (∀ seriesID timestamp,
       readSeries s seriesID timestamp (close s w).2 = Err ErrDatabaseNotOpen)
  ∧ (∀ seriesID,
       dropSeries s seriesID (close s w).2
       = (Err ErrDatabaseNotOpen, (close s w).2))
  ∧ (∀ writeRawSeriesMessageType m,
       ¬ Index m < index s → Type_ m = writeRawSeriesMessageType →
       processor_step writeRawSeriesMessageType m s (close s w).2
       = Panicked (PanicApplyShard (ID s) (Index m) ErrDatabaseNotOpen)
                  s (close s w).2).
Proof.
  intros Hs Hd. unfold close. rewrite Hs. cbn [snd].
  pose proof (Close_lookup_eq db w d Hd) as Hc.
  assert (Hwrite : ∀ idx batch,
             writeSeries s idx batch (bolt.Close db w)
             = (Err ErrDatabaseNotOpen, bolt.Close db w)).
  { intros idx batch. unfold writeSeries, bolt.Update. rewrite Hs, Hc.
    reflexivity. }
  split; [reflexivity|]. split; [exact Hwrite|]. split; [|split].
  - intros seriesID timestamp. unfold readSeries, View. rewrite Hs, Hc.
    reflexivity.
  - intros seriesID. unfold dropSeries, bolt.Update. rewrite Hs, Hc.
    reflexivity.
  - intros wt m Hstale Hty. unfold processor_step.
    rewrite decide_False by exact Hstale.
    rewrite decide_True by exact Hty. rewrite Hwrite. reflexivity.
Qed.

Lemma close_then_use_example :
  bolt.files (close opened_shard opened_state).2 = bolt.files opened_state
  ∧ (∀ idx batch,
       writeSeries opened_shard idx batch (close opened_shard opened_state).2
       = (Err ErrDatabaseNotOpen, (close opened_shard opened_state).2))
  ∧ (∀ seriesID timestamp,
       readSeries opened_shard seriesID timestamp
         (close opened_shard opened_state).2 = Err ErrDatabaseNotOpen)
  ∧ (∀ seriesID,
       dropSeries opened_shard seriesID (close opened_shard opened_state).2
       = (Err ErrDatabaseNotOpen, (close opened_shard opened_state).2))
  ∧ (∀ writeRawSeriesMessageType m,
       ¬ Index m < index opened_shard → Type_ m = writeRawSeriesMessageType →
       processor_step writeRawSeriesMessageType m opened_shard
         (close opened_shard opened_state).2
       = Panicked (PanicApplyShard (ID opened_shard) (Index m)
                     ErrDatabaseNotOpen)
                  opened_shard (close opened_shard opened_state).2).
Proof.
  apply (close_then_use opened_shard opened_state 0%nat
           (bolt.mkDB "shard1" true)); reflexivity.
Defined.

Lemma close_keeps_handles s w h d :
  bolt.dbs w !! h = Some d →
  ∃ d', bolt.dbs (close s w).2 !! h = Some d'
        ∧ bolt.path d' = bolt.path d
        ∧ (bolt.opened d = false → bolt.opened d' = false).
Proof.
  intros Hd. unfold close. destruct (store s) as [db|]; cbn [snd].
  - destruct (decide (h = db)) as [->|Hne].
    + rewrite (Close_lookup_eq db w d Hd). eexists. repeat split.
    + rewrite (Close_lookup_ne db w h Hne). exists d. repeat split; auto.
  - exists d. repeat split; auto.
Qed.

Lemma ShardGroup_close_keeps_handles shards : ∀ w h d,
  bolt.dbs w !! h = Some d →
  ∃ d', bolt.dbs (foldl (λ w sh, (close sh w).2) w shards) !! h = Some d'
        ∧ bolt.path d' = bolt.path d
        ∧ (bolt.opened d = false → bolt.opened d' = false).
Proof.
  induction shards as [|s shards IH]; intros w h d Hd; simpl.
  - exists d. repeat split; auto.
  - destruct (close_keeps_handles s w h d Hd) as (d1 & H1 & Hp1 & Ho1).
    destruct (IH _ h d1 H1) as (d2 & H2 & Hp2 & Ho2).
    exists d2. repeat split; [exact H2 | congruence | auto].
Qed.

(** X11: [ShardGroup.close] leaves the files as they were, closes the handle
    of every shard of the group, and leaves the handles that no shard of the
    group holds as they were. *)
Theorem ShardGroup_close_closes :
  ∀ g w,
    bolt.files (ShardGroup_close g w) = bolt.files w
    ∧ (∀ sh db d,
         sh ∈ Shards g → store sh = Some db → bolt.dbs w !! db = Some d →
         bolt.dbs (ShardGroup_close g w) !! db
         = Some (bolt.mkDB (bolt.path d) false))
    ∧ (∀ h,
         (∀ sh, sh ∈ Shards g → store sh ≠ Some h) →
         bolt.dbs (ShardGroup_close g w) !! h = bolt.dbs w !! h).
Proof.
  intros g w. unfold ShardGroup_close. generalize (Shards g) as shards.
  intros shards. revert w.
  induction shards as [|s shards IH]; intros w; simpl.
  - split; [reflexivity|]. split; [|reflexivity].
    intros sh db d Hin. apply elem_of_nil in Hin. contradiction.
  - destruct (IH (close s w).2) as (Hf & Hm & Ho).
    split; [|split].
    + rewrite Hf. unfold close. destruct (store s); reflexivity.
    + intros sh db d Hin Hs Hd. apply elem_of_cons in Hin as [->|Hin].
      * assert (H1 : bolt.dbs (close s w).2 !! db
                     = Some (bolt.mkDB (bolt.path d) false)).
        { unfold close. rewrite Hs. cbn [snd]. apply Close_lookup_eq, Hd. }
        destruct (ShardGroup_close_keeps_handles shards _ db _ H1)
          as (d' & H' & Hp & Hcl).
        rewrite H'. f_equal. destruct d' as [p' o']. simpl in *.
        rewrite Hp, Hcl by reflexivity. reflexivity.
      * destruct (close_keeps_handles s w db d Hd) as (d1 & H1 & Hp1 & _).
        rewrite (Hm sh db d1 Hin Hs H1), Hp1. reflexivity.
    + intros h Hnot. rewrite Ho.
      * unfold close. destruct (store s) as [db|] eqn:Hs; [|reflexivity].
        cbn [snd]. apply Close_lookup_ne. intros ->.
        apply (Hnot s); [apply elem_of_cons; left; reflexivity | exact Hs].
      * intros sh Hin. apply Hnot. apply elem_of_cons. right. exact Hin.
Qed.

(** ** Data nodes, time windows and routing *)

(** X12: [HasDataNodeID] holds exactly for the ids listed in
    [DataNodeIDs]. *)
Theorem HasDataNodeID_iff :
  ∀ s id, HasDataNodeID s id = true ↔ id ∈ DataNodeIDs s.
Proof.
  intros s id. unfold HasDataNodeID.
  induction (DataNodeIDs s) as [|x ids IH]; simpl.
  - split; [discriminate|]. intros H. apply elem_of_nil in H. contradiction.
  - rewrite elem_of_cons. destruct (decide (x = id)) as [->|Hne].
    + split; [left; reflexivity | reflexivity].
    + rewrite IH. split; [right; assumption|].
      intros [->|H]; [contradiction | exact H].
Qed.

(** X13: for a group whose start is not after its end and a query window
    whose [min] is not after its [max], [Contains] is the overlap of the two
    closed intervals: it holds exactly when the group starts no later than
    [max] and ends no earlier than [min]. *)
Theorem Contains_overlap (g : ShardGroup) (min max : Z) :
  StartTime g <= EndTime g → min <= max →
  (Contains g min max = true ↔ StartTime g <= max ∧ min <= EndTime g).
Proof.
  intros Hg Hq. unfold Contains, timeBetweenInclusive.
  rewrite !orb_true_iff, !andb_true_iff, !Z.leb_le, !Z.ltb_lt. lia.
Qed.

Lemma Contains_overlap_example :
  Contains (mkShardGroup 1 100 200 []) 200 300 = true
  ↔ 100 <= 300 ∧ 200 <= 200.
Proof.
  apply (Contains_overlap (mkShardGroup 1 100 200 []) 200 300); simpl; lia.
Defined.

(** X14: [ShardBySeriesID] on a group without shards panics with a division
    by zero, whatever the width of [int]; and where [int] has 32 bits it
    returns the shard at [s mod n] for series ids below 2^31 only: for a
    larger id the index is negative and the call panics, unless the shard
    count divides [2^32 - s]. *)
Theorem ShardBySeriesID_edges (g : ShardGroup) (seriesID : Z) :
  is_uint32 seriesID →
  (Shards g = [] →
   ∀ intSize, ShardBySeriesID intSize g seriesID = Panic DivideByZero)
  ∧ (Shards g ≠ [] → seriesID < 2 ^ 31 →
     ∃ sh, ShardBySeriesID 32 g seriesID = Ok sh
           ∧ Shards g !! Z.to_nat (seriesID mod Z.of_nat (length (Shards g)))
             = Some sh)
  ∧ (Shards g ≠ [] → 2 ^ 31 <= seriesID →
     (2 ^ 32 - seriesID) mod Z.of_nat (length (Shards g)) ≠ 0 →
     ShardBySeriesID 32 g seriesID = Panic IndexOutOfRange).
Proof.
  unfold is_uint32, uint32_max. intros Hs. split; [|split].
  - intros Hnil intSize. unfold ShardBySeriesID. rewrite Hnil. reflexivity.
  - intros Hne Hlt. unfold ShardBySeriesID.
    assert (Hn : 0 < Z.of_nat (length (Shards g))).
    { destruct (Shards g); [congruence | simpl; lia]. }
    destruct (decide _) as [H0|_]; [lia|].
    assert (Hint : int_of_uint32 32 seriesID = seriesID).
    { unfold int_of_uint32. rewrite Z.mod_small by lia.
      destruct (Z.ltb_spec seriesID (2 ^ (32 - 1))); [reflexivity|].
      simpl in *. lia. }
    rewrite Hint, Z.rem_mod_nonneg by lia.
    pose proof (Z.mod_pos_bound seriesID _ Hn) as Hb.
    destruct (decide _) as [Hneg|_]; [lia|].
    destruct (Shards g !! _) as [sh|] eqn:E.
    + exists sh. split; reflexivity.
    + apply lookup_ge_None in E. lia.
  - intros Hne Hge Hmod. unfold ShardBySeriesID.
    assert (Hn : 0 < Z.of_nat (length (Shards g))).
    { destruct (Shards g); [congruence | simpl; lia]. }
    destruct (decide _) as [H0|_]; [lia|].
    assert (Hint : int_of_uint32 32 seriesID = - (2 ^ 32 - seriesID)).
    { unfold int_of_uint32. rewrite Z.mod_small by lia.
      destruct (Z.ltb_spec seriesID (2 ^ (32 - 1))); [simpl in *; lia | lia]. }
    rewrite Hint, Z.rem_opp_l by lia.
    rewrite Z.rem_mod_nonneg by lia.
    pose proof (Z.mod_pos_bound (2 ^ 32 - seriesID) _ Hn) as Hb.
    destruct (decide _) as [_|Hnn]; [reflexivity | lia].
Qed.

Lemma ShardBySeriesID_edges_example :
  ShardBySeriesID 64 (mkShardGroup 1 100 200 []) 7 = Panic DivideByZero
  ∧ ShardBySeriesID 32 (mkShardGroup 1 100 200 [newShard; newShard])
                    2147483649 = Panic IndexOutOfRange.
Proof.
  split.
  - apply (proj1 (ShardBySeriesID_edges (mkShardGroup 1 100 200 []) 7
                    ltac:(unfold is_uint32, uint32_max; lia))).
    reflexivity.
  - apply (proj2 (proj2 (ShardBySeriesID_edges
                           (mkShardGroup 1 100 200 [newShard; newShard])
                           2147483649
                           ltac:(unfold is_uint32, uint32_max; lia)))).
    + discriminate.
    + lia.
    + discriminate.
Defined.

(** ** The consumer loop and the recorded index *)

Lemma writeSeries_not_ok s idx batch w :
  (writeSeries s idx batch w).1 ≠ Ok () → (writeSeries s idx batch w).2 = w.
Proof.
  unfold writeSeries. destruct (store s) as [db|]; [|reflexivity].
  unfold bolt.Update. destruct (bolt.dbs w !! db) as [d|]; [|reflexivity].
  destruct (bolt.opened d); simpl; [|reflexivity].
  destruct (writeSeries_tx idx batch _); [|reflexivity..].
  destruct (bolt.commit_fault w); [reflexivity|].
  simpl. intros H. contradiction H. reflexivity.
Qed.

Lemma processor_step_records wt m s w db d :
  store s = Some db → bolt.dbs w !! db = Some d →
  recorded_index (file_of w d) (index s) → is_uint64 (Index m) →
  store (loop_shard (processor_step wt m s w)) = Some db
  ∧ bolt.dbs (loop_store (processor_step wt m s w)) !! db = Some d
  ∧ recorded_index (file_of (loop_store (processor_step wt m s w)) d)
                   (index (loop_shard (processor_step wt m s w))).
Proof.
  intros Hs Hd Hrec Hidx. unfold processor_step.
  destruct (decide (Index m < index s)); [repeat split; assumption|].
  destruct (decide (Type_ m = wt)); [|repeat split; assumption].
  pose proof (writeSeries_not_ok s (Index m) (Data m) w) as Hsame.
  destruct (writeSeries s (Index m) (Data m) w) as [[[]| |] w1] eqn:Hw;
    simpl in Hsame |- *.
  - destruct (writeSeries_ok_inv _ _ _ _ _ Hw)
      as (db' & d' & tx1 & _ & _ & _ & _ & _ & Hw1).
    split; [exact Hs|]. split; [rewrite Hw1; exact Hd|].
    exact (writeSeries_records_index s (Index m) (Data m) w w1 db d
             Hw Hs Hd Hidx).
  - rewrite Hsame by discriminate. repeat split; assumption.
  - rewrite Hsame by discriminate. repeat split; assumption.
Qed.

(** X15: the consumer loop keeps the index recorded in the store file equal
    to the shard's in-memory index: if they agree when the loop starts, they
    agree when it returns, and also in the state a panic leaves behind, for
    any sequence of messages. *)
Theorem processor_records_index (writeRawSeriesMessageType : Z)
    (msgs : list Message) (s : Shard) (w : bolt.State) (db : nat)
    (d : bolt.DB) :
  store s = Some db → bolt.dbs w !! db = Some d →
  recorded_index (file_of w d) (index s) →
  Forall (λ m, is_uint64 (Index m)) msgs →
  recorded_index
    (file_of (loop_store (processor writeRawSeriesMessageType msgs s w)) d)
    (index (loop_shard (processor writeRawSeriesMessageType msgs s w))).
Proof.
  intros Hs Hd Hrec Hmsgs. revert s w Hs Hd Hrec.
  induction Hmsgs as [|m msgs Hm Hmsgs IH]; intros s w Hs Hd Hrec; simpl.
  - exact Hrec.
  - destruct (processor_step_records writeRawSeriesMessageType m s w db d
                Hs Hd Hrec Hm) as (Hs1 & Hd1 & Hrec1).
    destruct (processor_step _ m s w) as [s1 w1|p s1 w1]; simpl in *.
    + apply IH; assumption.
    + exact Hrec1.
Qed.

Lemma processor_records_index_example :
  recorded_index
    (file_of (loop_store (processor 1 [message_5; mkMessage 3 1 []]
                            opened_shard opened_state))
             (bolt.mkDB "shard1" true))
    (index (loop_shard (processor 1 [message_5; mkMessage 3 1 []]
                          opened_shard opened_state))).
Proof.
  apply (processor_records_index 1 [message_5; mkMessage 3 1 []]
           opened_shard opened_state 0%nat (bolt.mkDB "shard1" true)).
  - reflexivity.
  - reflexivity.
  - right. split; [reflexivity|]. left. reflexivity.
  - repeat constructor; unfold is_uint64, uint64_max; simpl; lia.
Defined.

(** ** What open does to the stored data *)

Lemma get2_ensure_bucket (tx : gmap bytes (gmap bytes bytes))
    (n name key : bytes) :
  get2 (ensure_bucket n tx) name key = get2 tx name key.
Proof.
  unfold ensure_bucket, get2. destruct (tx !! n) eqn:E; [reflexivity|].
  destruct (decide (n = name)) as [<-|Hne].
  - rewrite lookup_insert_eq, E. reflexivity.
  - rewrite lookup_insert_ne by exact Hne. reflexivity.
Qed.

Lemma open_init_tx (tx tx' : gmap bytes (gmap bytes bytes)) (s s' : Shard) :
  open_init tx s = (Ok tx', s') →
  tx' = ensure_bucket (bytes_of_string "meta")
          (ensure_bucket (bytes_of_string "values") tx).
Proof.
  unfold open_init, bolt.CreateBucketIfNotExists, ensure_bucket.
  destruct (decide (bytes_of_string "values" = [])) as [Hv|_];
    [discriminate Hv|].
  destruct (decide (bytes_of_string "meta" = [])) as [Hm|_];
    [discriminate Hm|].
  destruct (tx !! bytes_of_string "values") as [vb|];
    match goal with
    | |- context [?t !! bytes_of_string "meta"] =>
        destruct (t !! bytes_of_string "meta") as [mb|]
    end; simpl;
    destruct (decide _); try destruct (btou64 _);
    intros [= <- _]; reflexivity || discriminate.
Qed.

(** X16: [open] never changes what is stored: whatever it returns, every key
    of every bucket of the file reads as before, and the files at other
    paths are untouched; and when it returns nil the file has its "meta" and
    "values" buckets. *)
Theorem open_keeps_data :
  ∀ s p c w,
    (∀ name key,
       get2 (default ∅ (bolt.files (open s p c w).1.2 !! p)) name key
       = get2 (default ∅ (bolt.files w !! p)) name key)
    ∧ (∀ q, q ≠ p →
            bolt.files (open s p c w).1.2 !! q = bolt.files w !! q)
    ∧ ((open s p c w).1.1.1 = Ok () →
       is_Some (default ∅ (bolt.files (open s p c w).1.2 !! p)
                  !! bytes_of_string "meta")
       ∧ is_Some (default ∅ (bolt.files (open s p c w).1.2 !! p)
                    !! bytes_of_string "values")).
Proof.
  intros s p c w.
  destruct (store s) as [db|] eqn:Hs.
  { unfold open. rewrite Hs. simpl.
    split; [reflexivity|]. split; [reflexivity|]. discriminate. }
  rewrite (open_unopened s p c w Hs).
  destruct (bolt.open_fault w);
    [split; [reflexivity|]; split; [reflexivity|]; discriminate|].
  destruct (bolt.locked p w);
    [split; [reflexivity|]; split; [reflexivity|]; discriminate|].
  cbv zeta.
  set (f := match bolt.files w !! p with
            | Some _ => bolt.files w
            | None => <[p:=∅]> (bolt.files w)
            end).
  assert (Hfp : default ∅ (f !! p) = default ∅ (bolt.files w !! p))
    by apply ensured_file_lookup.
  assert (Hfq : ∀ q, q ≠ p → f !! q = bolt.files w !! q).
  { intros q Hq. subst f. destruct (bolt.files w !! p); [reflexivity|].
    apply lookup_insert_ne. congruence. }
  destruct (open_init _ _) as [[tx| |] s2] eqn:Hinit; simpl.
  - apply open_init_tx in Hinit.
    assert (Hdata : ∀ name key,
               get2 tx name key = get2 (default ∅ (bolt.files w !! p)) name key).
    { intros name key. rewrite Hinit, !get2_ensure_bucket. reflexivity. }
    assert (Hbuckets : is_Some (tx !! bytes_of_string "meta")
                       ∧ is_Some (tx !! bytes_of_string "values")).
    { rewrite Hinit. unfold ensure_bucket.
      destruct (default ∅ (bolt.files w !! p) !! bytes_of_string "values")
        as [vb|] eqn:Hv.
      - destruct (default ∅ (bolt.files w !! p) !! bytes_of_string "meta")
          as [mb|] eqn:Hm.
        + rewrite Hm, Hv. eauto.
        + rewrite lookup_insert_eq, lookup_insert_ne, Hv by discriminate.
          eauto.
      - rewrite lookup_insert_ne by discriminate.
        destruct (default ∅ (bolt.files w !! p) !! bytes_of_string "meta")
          as [mb|] eqn:Hm.
        + rewrite lookup_insert_ne, Hm, lookup_insert_eq by discriminate.
          eauto.
        + rewrite lookup_insert_eq, lookup_insert_ne, lookup_insert_eq
            by discriminate.
          eauto. }
    destruct (bolt.commit_fault w); simpl.
    + split; [intros; rewrite Hfp; reflexivity|].
      split; [exact Hfq | discriminate].
    + destruct (conn_Open c (index s2) true); simpl;
        rewrite ?lookup_insert_eq; simpl.
      * split; [exact Hdata|]. split; [|discriminate].
        intros q Hq. rewrite lookup_insert_ne by congruence. apply Hfq, Hq.
      * split; [exact Hdata|]. split; [|intros _; exact Hbuckets].
        intros q Hq. rewrite lookup_insert_ne by congruence. apply Hfq, Hq.
  - split; [intros; rewrite Hfp; reflexivity|].
    split; [exact Hfq | discriminate].
  - split; [intros; rewrite Hfp; reflexivity|].
    split; [exact Hfq | discriminate].
Qed.

(** ** Closing, then opening the file again *)

Lemma locked_false p w :
  (∀ h d, bolt.dbs w !! h = Some d → bolt.path d = p →
          bolt.opened d = false) →
  bolt.locked p w = false.
Proof.
  intros H. unfold bolt.locked.
  destruct (existsb _ (bolt.dbs w)) eqn:E; [|reflexivity].
  apply existsb_exists in E as (d & Hin & Hd).
  apply andb_true_iff in Hd as [Hp Ho]. apply bool_decide_eq_true in Hp.
  apply list_elem_of_In, list_elem_of_lookup in Hin as [h Hh].
  rewrite (H h d Hh Hp) in Ho. discriminate.
Qed.

(** X17: [close] releases the file.  When a shard holds the only open handle
    on its file, then after [close] a new shard opens that file, provided
    the environment lets it and the broker accepts: it recovers the index
    recorded in the file and asks the broker for it. *)
Theorem close_then_reopen (s : Shard) (w : bolt.State) (db : nat)
    (d : bolt.DB) (c : MessagingConn) (N : Z) :
  store s = Some db → bolt.dbs w !! db = Some d →
  (∀ h d', h ≠ db → bolt.dbs w !! h = Some d' → bolt.opened d' = true →
           bolt.path d' ≠ bolt.path d) →
  bolt.open_fault w = None → bolt.commit_fault w = None →
  recorded_index (file_of w d) N → conn_Open c N true = None →
  ∃ s' w',
    open newShard (bolt.path d) c (close s w).2
    = (Ok (), s', w', [CallConnOpen N true; GoProcessor])
    ∧ index s' = N ∧ store s' = Some (length (bolt.dbs w)).
Proof.
  intros Hs Hd Honly Hof Hcf Hrec Hconn.
  unfold close. rewrite Hs. cbn [snd].
  rewrite (open_unopened newShard (bolt.path d) c (bolt.Close db w) eq_refl).
  assert (Hlen : length (bolt.dbs (bolt.Close db w)) = length (bolt.dbs w)).
  { unfold bolt.Close, bolt.set_dbs. simpl. apply length_alter. }
  assert (Hfiles : bolt.files (bolt.Close db w) = bolt.files w) by reflexivity.
  assert (Hof' : bolt.open_fault (bolt.Close db w) = None) by exact Hof.
  assert (Hcf' : bolt.commit_fault (bolt.Close db w) = None) by exact Hcf.
  rewrite Hof', Hcf', Hfiles, Hlen.
  rewrite locked_false.
  2:{ intros h d' Hh Hp. destruct (decide (h = db)) as [->|Hne].
      - rewrite (Close_lookup_eq db w d Hd) in Hh. injection Hh as <-.
        reflexivity.
      - rewrite (Close_lookup_ne db w h Hne) in Hh.
        destruct (bolt.opened d') eqn:Ho; [|reflexivity].
        exfalso. exact (Honly h d' Hne Hh Ho Hp). }
  cbv zeta.
  destruct (open_init_eq (default ∅ (bolt.files w !! bolt.path d))
              (set_index 0 (set_store (Some (length (bolt.dbs w))) newShard)))
    as [tx' ->].
  cbv zeta. unfold file_of in Hrec.
  destruct Hrec as [[HN Hm] | [-> [Hm|Hm]]]; rewrite Hm; simpl default.
  - destruct (decide _) as [_|Hn]; [|exfalso; apply Hn; simpl; lia].
    rewrite (btou64_u64tob N HN). cbn [index set_index].
    rewrite Hconn. eexists _, _. repeat split.
  - destruct (decide _) as [Hn|_]; [simpl in Hn; lia|].
    cbn [index set_index]. rewrite Hconn. eexists _, _. repeat split.
  - destruct (decide _) as [Hn|_]; [simpl in Hn; lia|].
    cbn [index set_index]. rewrite Hconn. eexists _, _. repeat split.
Qed.

Lemma close_then_reopen_example :
  ∃ s' w',
    open newShard "shard1" conn_ok
      (close opened_shard
         (writeSeries opened_shard 5 (encode_frames [frame_7_42])
            opened_state).2).2
    = (Ok (), s', w', [CallConnOpen 5 true; GoProcessor])
    ∧ index s' = 5 ∧ store s' = Some 1%nat.
Proof.
  apply (close_then_reopen opened_shard
           (writeSeries opened_shard 5 (encode_frames [frame_7_42])
              opened_state).2
           0%nat (bolt.mkDB "shard1" true) conn_ok 5).
  - reflexivity.
  - reflexivity.
  - intros h d' Hne Hh. destruct h as [|h]; [contradiction|].
    destruct h; discriminate Hh.
  - reflexivity.
  - reflexivity.
  - left. split; [unfold is_uint64, uint64_max; lia | reflexivity].
  - reflexivity.
Defined.

(** ** uint8Slice *)

Lemma at_index_Some (p : bytes) (i : Z) (a : byte) :
  at_index p i = Some a ↔ 0 <= i ∧ p !! Z.to_nat i = Some a.
Proof.
  unfold at_index. destruct (decide (0 <= i)); [tauto|].
  split; [discriminate | intros [? _]; contradiction].
Qed.

(** X18: [uint8Slice.Swap] panics exactly when an index is outside the
    slice; otherwise it keeps the length, exchanges the two elements and
    leaves the others in place, and swapping the same pair again restores the
    slice. *)
Theorem uint8Slice_Swap_spec :
  ∀ (p : bytes) (i j : Z),
    (uint8Slice_Swap p i j = None ↔
     ¬ (0 <= i < uint8Slice_Len p ∧ 0 <= j < uint8Slice_Len p))
    ∧ (∀ q, uint8Slice_Swap p i j = Some q →
            length q = length p
            ∧ at_index q i = at_index p j ∧ at_index q j = at_index p i
            ∧ (∀ k, k ≠ i → k ≠ j → at_index q k = at_index p k)
            ∧ uint8Slice_Swap q i j = Some p).
Proof.
  intros p i j. unfold uint8Slice_Len. split.
  - unfold uint8Slice_Swap, at_index.
    destruct (decide (0 <= i)) as [Hi|Hi]; simpl.
    + destruct (p !! Z.to_nat i) as [a|] eqn:Ea; simpl.
      * apply lookup_lt_Some in Ea.
        destruct (decide (0 <= j)) as [Hj|Hj]; simpl.
        -- destruct (p !! Z.to_nat j) as [b|] eqn:Eb; simpl.
           ++ apply lookup_lt_Some in Eb. split; [discriminate|]. lia.
           ++ apply lookup_ge_None in Eb. split; [lia | reflexivity].
        -- split; [lia | reflexivity].
      * apply lookup_ge_None in Ea. split; [lia | reflexivity].
    + split; [lia | reflexivity].
  - intros q Hq. unfold uint8Slice_Swap in Hq.
    destruct (at_index p i) as [a|] eqn:Ea; [|discriminate].
    destruct (at_index p j) as [b|] eqn:Eb; [|discriminate].
    simpl in Hq. injection Hq as <-.
    apply at_index_Some in Ea as [Hi Ea]. apply at_index_Some in Eb as [Hj Eb].
    pose proof (lookup_lt_Some _ _ _ Ea) as Hli.
    pose proof (lookup_lt_Some _ _ _ Eb) as Hlj.
    assert (Hqi : at_index (<[Z.to_nat j:=a]> (<[Z.to_nat i:=b]> p)) i
                  = Some b).
    { apply at_index_Some. split; [exact Hi|].
      destruct (decide (Z.to_nat j = Z.to_nat i)) as [E|E].
      - rewrite E. rewrite list_lookup_insert_eq by (rewrite length_insert; lia).
        rewrite E in Eb. congruence.
      - rewrite list_lookup_insert_ne by exact E.
        apply list_lookup_insert_eq. lia. }
    assert (Hqj : at_index (<[Z.to_nat j:=a]> (<[Z.to_nat i:=b]> p)) j
                  = Some a).
    { apply at_index_Some. split; [exact Hj|].
      apply list_lookup_insert_eq. rewrite length_insert. lia. }
    split; [rewrite !length_insert; reflexivity|].
    split; [exact Hqi|]. split; [exact Hqj|].
    split.
    + intros k Hki Hkj. unfold at_index.
      destruct (decide (0 <= k)); [|reflexivity].
      rewrite !list_lookup_insert_ne by lia. reflexivity.
    + unfold uint8Slice_Swap. rewrite Hqi, Hqj. simpl. f_equal.
      apply list_eq. intros n.
      destruct (decide (n = Z.to_nat j)) as [->|Hnj].
      * rewrite list_lookup_insert_eq by (rewrite !length_insert; lia).
        symmetry. exact Eb.
      * rewrite list_lookup_insert_ne by congruence.
        destruct (decide (n = Z.to_nat i)) as [->|Hni].
        -- rewrite list_lookup_insert_eq by (rewrite !length_insert; lia).
           symmetry. exact Ea.
        -- rewrite !list_lookup_insert_ne by congruence. reflexivity.
Qed.

Lemma uint8Slice_Swap_at (p q : bytes) (i j : Z) :
  uint8Slice_Swap p i j = Some q →
  at_index q i = at_index p j ∧ at_index q j = at_index p i.
Proof.
  unfold uint8Slice_Swap.
  destruct (at_index p i) as [a|] eqn:Ea; [|discriminate].
  destruct (at_index p j) as [b|] eqn:Eb; [|discriminate].
  simpl. intros [= <-].
  apply at_index_Some in Ea as [Hi Ea]. apply at_index_Some in Eb as [Hj Eb].
  pose proof (lookup_lt_Some _ _ _ Ea) as Hli.
  pose proof (lookup_lt_Some _ _ _ Eb) as Hlj.
  split.
  - apply at_index_Some. split; [exact Hi|].
    destruct (decide (Z.to_nat j = Z.to_nat i)) as [E|E].
    + rewrite E. rewrite list_lookup_insert_eq by (rewrite length_insert; lia).
      rewrite E in Eb. congruence.
    + rewrite list_lookup_insert_ne by exact E.
      apply list_lookup_insert_eq. lia.
  - apply at_index_Some. split; [exact Hj|].
    apply list_lookup_insert_eq. rewrite length_insert. lia.
Qed.

(** X19: [uint8Slice.Less] panics exactly when an index is outside the
    slice; otherwise it answers whether the byte at [i], as an unsigned
    number, is below the byte at [j].  It is therefore never true of an
    element and itself, never true both ways, and transitive; and after
    [Swap(i, j)] it answers for [(i, j)] what it answered for [(j, i)]
    before. *)
Theorem uint8Slice_Less_spec :
  ∀ (p : bytes) (i j k : Z),
    (uint8Slice_Less p i j = None ↔
     ¬ (0 <= i < uint8Slice_Len p ∧ 0 <= j < uint8Slice_Len p))
    ∧ (∀ r, uint8Slice_Less p i j = Some r ↔
            ∃ a b, at_index p i = Some a ∧ at_index p j = Some b
                   ∧ (r = true ↔ Z_of_byte a < Z_of_byte b))
    ∧ (∀ q, uint8Slice_Swap p i j = Some q →
            uint8Slice_Less q i j = uint8Slice_Less p j i
            ∧ uint8Slice_Less q j i = uint8Slice_Less p i j)
    ∧ uint8Slice_Less p i i ≠ Some true
    ∧ (uint8Slice_Less p i j = Some true → uint8Slice_Less p j i = Some false)
    ∧ (uint8Slice_Less p i j = Some true → uint8Slice_Less p j k = Some true →
       uint8Slice_Less p i k = Some true).
Proof.
  intros p i j k. unfold uint8Slice_Len.
  split; [|split; [|split; [|split; [|split]]]].
  - unfold uint8Slice_Less, at_index.
    destruct (decide (0 <= i)) as [Hi|Hi]; simpl; [|split; [lia|reflexivity]].
    destruct (p !! Z.to_nat i) as [a|] eqn:Ea; simpl.
    + apply lookup_lt_Some in Ea.
      destruct (decide (0 <= j)) as [Hj|Hj]; simpl;
        [|split; [lia|reflexivity]].
      destruct (p !! Z.to_nat j) as [b|] eqn:Eb; simpl.
      * apply lookup_lt_Some in Eb. split; [discriminate|]. lia.
      * apply lookup_ge_None in Eb. split; [lia | reflexivity].
    + apply lookup_ge_None in Ea. split; [lia | reflexivity].
  - intros r. unfold uint8Slice_Less.
    destruct (at_index p i) as [a|]; simpl.
    + destruct (at_index p j) as [b|]; simpl.
      * split.
        -- intros [= <-]. exists a, b. repeat split; try reflexivity.
           ++ apply bool_decide_eq_true.
           ++ apply bool_decide_eq_true.
        -- intros (a' & b' & [= <-] & [= <-] & Hr). f_equal.
           destruct r.
           ++ apply bool_decide_eq_true. apply Hr. reflexivity.
           ++ apply bool_decide_eq_false. intros Hlt.
              apply Hr in Hlt. discriminate.
      * split; [discriminate|]. intros (a' & b' & _ & H & _). discriminate.
    + split; [discriminate|]. intros (a' & b' & H & _). discriminate.
  - intros q Hq.
    destruct (uint8Slice_Swap_at p q i j Hq) as [Hqi Hqj].
    unfold uint8Slice_Less. rewrite Hqi, Hqj. split; reflexivity.
  - unfold uint8Slice_Less.
    destruct (at_index p i) as [a|]; simpl; [|discriminate].
    intros [= H]. apply bool_decide_eq_true in H. lia.
  - unfold uint8Slice_Less.
    destruct (at_index p i) as [a|]; simpl; [|discriminate].
    destruct (at_index p j) as [b|]; simpl; [|discriminate].
    intros [= H]. apply bool_decide_eq_true in H. f_equal.
    apply bool_decide_eq_false. lia.
  - unfold uint8Slice_Less.
    destruct (at_index p i) as [a|]; simpl; [|discriminate].
    destruct (at_index p j) as [b|]; simpl; [|discriminate].
    destruct (at_index p k) as [c|]; simpl; [|discriminate].
    intros [= H1] [= H2]. apply bool_decide_eq_true in H1, H2. f_equal.
    apply bool_decide_eq_true. lia.
Qed.

(** ** Two shards, one file *)

(** X20: the already-open check looks at the shard only.  While one shard
    holds an open handle on a file, [open] of that file on another shard,
    one that holds no handle, gives up with bolt's timeout error on the file
    lock and changes nothing. *)
Theorem open_locked_file (s1 s2 : Shard) (c : MessagingConn) (w : bolt.State)
    (db : nat) (d : bolt.DB) :
  store s1 = Some db → bolt.dbs w !! db = Some d → bolt.opened d = true →
  store s2 = None → bolt.open_fault w = None →
  open s2 (bolt.path d) c w = (Err ErrTimeout, s2, w, []).
Proof.
  intros _ Hd Ho Hs2 Hof. rewrite (open_unopened s2 _ c w Hs2), Hof.
  assert (Hl : bolt.locked (bolt.path d) w = true).
  { unfold bolt.locked. apply existsb_exists. exists d. split.
    - apply list_elem_of_In, list_elem_of_lookup. eauto.
    - rewrite Ho, bool_decide_eq_true_2 by reflexivity. reflexivity. }
  rewrite Hl. reflexivity.
Qed.

Lemma open_locked_file_example :
  open newShard "shard1" conn_ok opened_state
  = (Err ErrTimeout, newShard, opened_state, []).
Proof.
  apply (open_locked_file opened_shard newShard conn_ok opened_state 0%nat
           (bolt.mkDB "shard1" true)); reflexivity.
Defined.

Lemma writeSeries_well_formed_example :
  ∃ w1, writeSeries opened_shard 5 (encode_frames [frame_7_42]) opened_state
        = (Ok (), w1).
Proof.
  apply (writeSeries_well_formed opened_shard 5 (encode_frames [frame_7_42])
           opened_state 0%nat (bolt.mkDB "shard1" true)).
  - reflexivity.
  - reflexivity.
  - reflexivity.
  - reflexivity.
  - eexists. reflexivity.
  - exists [frame_7_42]. split; [discriminate|]. split; [|reflexivity].
    repeat constructor; unfold is_uint32, is_int64, uint32_max; simpl; lia.
  - vm_compute. reflexivity.
Defined.

(** ** The 32-bit length test *)

Lemma encode_frames_replicate_length n f :
  length (encode_frames (replicate n f)) = (n * length (encode_frame f))%nat.
Proof.
  induction n as [|n IH]; [reflexivity|].
  change (encode_frames (replicate (S n) f))
    with (encode_frame f ++ encode_frames (replicate n f)).
  rewrite length_app, IH. lia.
Qed.

(** X22: the payload length of a frame is compared with the number of bytes
    left truncated to 32 bits.  So a batch made of well-formed frames only
    is rejected with the invalid-point-buffer error, and nothing is written,
    when the bytes that follow its first header number [k * 2^32 + r] with
    [r] below the length of the first payload. *)
Theorem writeSeries_rejects_long_batch (s : Shard) (w : bolt.State) (idx : Z)
    (f : Frame) (fs : list Frame) :
  shard_open s w → Forall frame_ok (f :: fs) →
  Z.of_nat (length (frame_payload f) + length (encode_frames fs)) mod 2 ^ 32
  < Z.of_nat (length (frame_payload f)) →
  writeSeries s idx (encode_frames (f :: fs)) w
  = (Err ErrInvalidPointBuffer, w).
Proof.
  intros (db & d & Hs & Hd & Ho) Hfs Hlen.
  rewrite (writeSeries_open s idx _ w db d Hs Hd Ho).
  unfold writeSeries_tx.
  change (encode_frames (f :: fs)) with (encode_frame f ++ encode_frames fs).
  rewrite writePoints_eq, writePoint_frame by (inversion Hfs; assumption).
  rewrite decide_True; [reflexivity|].
  unfold uint32_of_len. rewrite length_app. exact Hlen.
Qed.

Lemma writeSeries_rejects_long_batch_example :
  well_formed (encode_frames long_frames)
  ∧ writeSeries opened_shard 5 (encode_frames long_frames) opened_state
    = (Err ErrInvalidPointBuffer, opened_state).
Proof.
  assert (Hok : Forall frame_ok long_frames).
  { constructor.
    - repeat split; unfold is_uint32, is_int64, uint32_max; simpl; lia.
    - apply Forall_replicate.
      repeat split; unfold is_uint32, is_int64, uint32_max; simpl; lia. }
  split.
  - exists long_frames. split; [discriminate|]. split; [exact Hok|reflexivity].
  - apply (writeSeries_rejects_long_batch opened_shard opened_state 5 frame_32
             (replicate (Z.to_nat 268435455) frame_empty)).
    + exact opened_shard_open.
    + exact Hok.
    + rewrite encode_frames_replicate_length.
      change (length (frame_payload frame_32)) with 32%nat.
      change (length (encode_frame frame_empty)) with 16%nat.
      rewrite Nat2Z.inj_add, Nat2Z.inj_mul, Z2Nat.id by lia.
      reflexivity.
Defined.
